(** * NEAT: nodes and the innovation registry

    A shallow embedding of [node.py] and [connection_history.py].

    Python objects live in a store indexed by object identity; an
    attribute that holds a [Node] holds its identity.  Methods that read
    or write other objects take the store; a result of [None] stands for
    dereferencing an identity that holds no object, which no Python
    program can do.

    Numbers are kept abstract: the development is parametric in the
    carrier of Python's numeric values and in [+], [*], [/] and [<], so
    no law of arithmetic is assumed that floating point would break.
    The module [activation_functions] and the two random generators are
    parameters as well. *)

From Stdlib Require Import ZArith QArith List String Bool Lia.
From stdpp Require Import base option gmap list.

Local Open Scope Z_scope.

(** ** Values shared by both files *)

(** Object identity. *)
Definition loc := nat.

(** The ten callables exported by the module [activation_functions]. *)
Inductive ActFn :=
| elu | leaky_relu | linear | prelu | relu
| sigmoid | softmax | step | swish | tanh.

(** What the attribute [activation_function] and the argument of
    [get_activation_function] may hold at run time: the annotation asks
    for a name, the callers also pass callables. *)
Inductive pyval :=
| PyStr (s : string)
| PyFun (f : ActFn)
| PyInt (z : Z)
| PyNone.

(** [v == "literal"]: a string equals a string with the same characters,
    every other value differs from every string. *)
Definition py_eq_str (v : pyval) (s : string) : bool :=
  match v with
  | PyStr t => String.eqb t s
  | _ => false
  end.

(** The [__name__] of each callable. *)
Definition name_of (f : ActFn) : string :=
  match f with
  | elu => "elu" | leaky_relu => "leaky_relu" | linear => "linear"
  | prelu => "prelu" | relu => "relu" | sigmoid => "sigmoid"
  | softmax => "softmax" | step => "step" | swish => "swish"
  | tanh => "tanh"
  end%string.

(** [Node.get_activation_function]: the chain of comparisons, in the
    order of the source. *)
Definition get_activation_function (activation_function : pyval) : ActFn :=
  if py_eq_str activation_function "elu" then elu
  else if py_eq_str activation_function "leaky_relu" then leaky_relu
  else if py_eq_str activation_function "linear" then linear
  else if py_eq_str activation_function "prelu" then prelu
  else if py_eq_str activation_function "relu" then relu
  else if py_eq_str activation_function "sigmoid" then sigmoid
  else if py_eq_str activation_function "softmax" then softmax
  else if py_eq_str activation_function "step" then step
  else if py_eq_str activation_function "swish" then swish
  else if py_eq_str activation_function "tanh" then tanh
  else sigmoid.

(** The same chain for an argument of any class.  Each test
    [argument == "name"] is decided by the argument's own [__eq__] and by
    the truth value of what it returns, so the argument enters as what
    each test yields as a condition: [Some true], [Some false], or [None]
    when the comparison or the truth value raises. *)
Definition py_if {A} (c : option bool) (t e : option A) : option A :=
  match c with
  | Some true => t
  | Some false => e
  | None => None
  end.

Definition get_activation_function_any (eq : string -> option bool) : option ActFn :=
  py_if (eq "elu"%string) (Some elu)
  (py_if (eq "leaky_relu"%string) (Some leaky_relu)
  (py_if (eq "linear"%string) (Some linear)
  (py_if (eq "prelu"%string) (Some prelu)
  (py_if (eq "relu"%string) (Some relu)
  (py_if (eq "sigmoid"%string) (Some sigmoid)
  (py_if (eq "softmax"%string) (Some softmax)
  (py_if (eq "step"%string) (Some step)
  (py_if (eq "swish"%string) (Some swish)
  (py_if (eq "tanh"%string) (Some tanh)
  (Some sigmoid)))))))))).

(** The tests of a string and of a value whose class keeps the default
    [__eq__] (a plain function, an int, [None]): never an exception. *)
Definition default_eq (v : pyval) : string -> option bool :=
  fun s => Some (py_eq_str v s).

(** An object that compares equal to everything, as [unittest.mock.ANY]
    does, and one whose comparison cannot be used as a condition, as an
    array of two numbers. *)
Definition eq_anything : string -> option bool := fun _ => Some true.

Definition eq_raises : string -> option bool := fun _ => None.

(** [x in xs] on a list of integers. *)
Fixpoint py_in (x : Z) (xs : list Z) : bool :=
  match xs with
  | [] => false
  | y :: ys => if x =? y then true else py_in x ys
  end.

(** ** Records *)

Section Objects.

Context {num : Type}.

(** A connection gene ([connection_gene.py] is not part of the sources;
    the attributes are those read by [node.py], [connection_history.py]
    and the constructor call of the tests). *)
Record ConnectionGene := {
  gene_from_node : loc;
  gene_to_node : loc;
  weight : num;
  gene_innovation_nb : Z;
  enabled : bool
}.

Record Node := {
  node_id : Z;
  input_sum : num;
  output_value : num;
  output_connections : list ConnectionGene;
  layer : Z;
  activation_function : pyval
}.

(** Of a genome only [genes] is read. *)
Record Genome := {
  genes : list ConnectionGene
}.

Record ConnectionHistory := {
  from_node : loc;
  to_node : loc;
  innovation_nb : Z;
  innovation_nbs : list Z
}.

(** The keys of the configuration dictionary read by [Node.mutate]. *)
Record NeatConfig := {
  bias_replace_rate : num;
  bias_min_value : num;
  bias_max_value : num;
  bias_mutate_rate : num;
  bias_init_mean : num;
  bias_init_stdev : num;
  activation_mutate_rate : num
}.

(** Attribute assignment. *)
Definition set_input_sum (n : Node) (v : num) : Node :=
  {| node_id := node_id n; input_sum := v; output_value := output_value n;
     output_connections := output_connections n; layer := layer n;
     activation_function := activation_function n |}.

Definition set_output_value (n : Node) (v : num) : Node :=
  {| node_id := node_id n; input_sum := input_sum n; output_value := v;
     output_connections := output_connections n; layer := layer n;
     activation_function := activation_function n |}.

Definition set_activation_function (n : Node) (v : pyval) : Node :=
  {| node_id := node_id n; input_sum := input_sum n;
     output_value := output_value n;
     output_connections := output_connections n; layer := layer n;
     activation_function := v |}.

End Objects.

Arguments ConnectionGene : clear implicits.
Arguments Node : clear implicits.
Arguments Genome : clear implicits.
Arguments NeatConfig : clear implicits.

(** The object store: identity to node. *)
Abbreviation store num := (gmap loc (Node num)).

(** ** connection_history.py *)

Section ConnectionHistoryCode.

Context {num : Type}.

Definition ConnectionHistory__init__ (from_node0 to_node0 : loc)
    (innovation_nb0 : Z) (innovation_nbs0 : list Z) : ConnectionHistory :=
  {| from_node := from_node0; to_node := to_node0;
     innovation_nb := innovation_nb0; innovation_nbs := innovation_nbs0 |}.

(** The loop of [matches]: leave with [False] at the first gene whose
    innovation number is not stored, [True] when the list is exhausted. *)
Fixpoint matches_loop (stored : list Z) (gs : list (ConnectionGene num)) : bool :=
  match gs with
  | [] => true
  | g :: gs' =>
      if negb (py_in (gene_innovation_nb g) stored) then false
      else matches_loop stored gs'
  end.

(** [ConnectionHistory.matches].  The identities are only dereferenced
    once the lengths agree; [and] evaluates its right operand only when
    the left one holds. *)
Definition matches (h : store num) (self : ConnectionHistory)
    (genome : Genome num) (from_node0 to_node0 : loc) : option bool :=
  if (length (genes genome) =? length (innovation_nbs self))%nat then
    f ← h !! from_node0;
    sf ← h !! from_node self;
    if negb (node_id f =? node_id sf) then Some false
    else
      t ← h !! to_node0;
      st ← h !! to_node self;
      if node_id t =? node_id st then Some (matches_loop (innovation_nbs self) (genes genome))
      else Some false
  else Some false.

End ConnectionHistoryCode.

(** ** node.py *)

Section NodeCode.

Context {num : Type}.

(** Integer literals, and Python's [+], [*], [/] and [<] on numbers. *)
Variable of_int : Z -> num.
Variables add mul div : num -> num -> num.
Variable ltb : num -> num -> bool.

(** The module [activation_functions]: what each callable computes. *)
Variable activation_functions : ActFn -> num -> num.

Definition Node__init__ (id0 : Z) (activation_function0 : pyval)
    (layer0 : Z) : Node num :=
  {| node_id := id0; input_sum := of_int 0; output_value := of_int 0;
     output_connections := []; layer := layer0;
     activation_function := activation_function0 |}.

(** The loop of [engage].  Each round reads [self.output_value] and the
    target's [input_sum] from the store as it then is. *)
Fixpoint engage_loop (self : loc) (cs : list (ConnectionGene num))
    (h : store num) : option (store num) :=
  match cs with
  | [] => Some h
  | c :: cs' =>
      if enabled c then
        t ← h !! gene_to_node c;
        s ← h !! self;
        engage_loop self cs'
          (<[gene_to_node c :=
               set_input_sum t (add (input_sum t) (mul (weight c) (output_value s)))]> h)
      else engage_loop self cs' h
  end.

(** [Node.engage]. *)
Definition engage (h : store num) (self : loc) : option (store num) :=
  s ← h !! self;
  let h1 :=
    if negb (layer s =? 0) then
      let activation := get_activation_function (activation_function s) in
      <[self := set_output_value s (activation_functions activation (input_sum s))]> h
    else h in
  s1 ← h1 !! self;
  engage_loop self (output_connections s1) h1.

(** The loops of [is_connected_to]: [True] at the first connection whose
    [to_node] is the object [target] (nodes define no [__eq__], so [==]
    is identity), [False] after the last. *)
Fixpoint is_connected_loop (target : loc) (cs : list (ConnectionGene num)) : bool :=
  match cs with
  | [] => false
  | c :: cs' =>
      if Nat.eqb (gene_to_node c) target then true
      else is_connected_loop target cs'
  end.

(** [Node.is_connected_to]. *)
Definition is_connected_to (h : store num) (self node : loc) : option bool :=
  n ← h !! node;
  s ← h !! self;
  if layer n =? layer s then Some false
  else if layer n <? layer s then
    Some (is_connected_loop self (output_connections n))
  else
    Some (is_connected_loop node (output_connections s)).

(** *** Random draws

    [random] and [choice] come from Python's [random], [uniform] and
    [normal] from [numpy.random].  A generator is deterministic once
    seeded, so what a call returns is a function of the calls made so
    far; the state threaded through [mutate] is that history, newest
    call first. *)
Inductive rand_call :=
| Call_random
| Call_uniform (low high : num)
| Call_normal (mean stdev : num)
| Call_choice (seq : list string).

Definition history := list rand_call.

(** The numbers and the list elements the generators hand out. *)
Variable draw : history -> rand_call -> num.
Variable pick : history -> list string -> string.

Definition Rand (A : Type) : Type := history -> A * history.

Definition ret {A} (a : A) : Rand A := fun tr => (a, tr).

Definition bind {A B} (m : Rand A) (k : A -> Rand B) : Rand B :=
  fun tr => let (a, tr') := m tr in k a tr'.

Notation "x <- m ;; k" := (bind m (fun x => k))
  (at level 100, m at next level, right associativity).

Definition random : Rand num :=
  fun tr => (draw tr Call_random, Call_random :: tr).

Definition uniform (low high : num) : Rand num :=
  fun tr => (draw tr (Call_uniform low high), Call_uniform low high :: tr).

Definition normal (mean stdev : num) : Rand num :=
  fun tr => (draw tr (Call_normal mean stdev), Call_normal mean stdev :: tr).

Definition choice (seq : list string) : Rand string :=
  fun tr => (pick tr seq, Call_choice seq :: tr).

(** The list literal of [mutate]. *)
Definition activations_functions : list string :=
  ["step"; "sigmoid"; "tanh"; "relu"; "leaky_relu"; "prelu"; "elu";
   "softmax"; "linear"; "swish"]%string.

(** The bias part of [mutate]: [if ... elif ...] under [if is_bias_node]. *)
Definition mutate_bias (config : NeatConfig num) (self : Node num) : Rand (Node num) :=
  r <- random ;;
  if ltb r (bias_replace_rate config) then
    u <- uniform (bias_min_value config) (bias_max_value config) ;;
    ret (set_output_value self u)
  else
    r' <- random ;;
    if ltb r' (bias_mutate_rate config) then
      g <- normal (bias_init_mean config) (bias_init_stdev config) ;;
      let self1 := set_output_value self (add (output_value self) (div g (of_int 50))) in
      let self2 :=
        if ltb (bias_max_value config) (output_value self1)
        then set_output_value self1 (bias_max_value config) else self1 in
      let self3 :=
        if ltb (output_value self2) (bias_min_value config)
        then set_output_value self2 (bias_min_value config) else self2 in
      ret self3
    else ret self.

(** [Node.mutate].  The method reads and assigns attributes of [self]
    only, so it is given on the record of [self]; the caller writes the
    result back at the identity of [self]. *)
Definition mutate (config : NeatConfig num) (is_bias_node : bool)
    (self : Node num) : Rand (Node num) :=
  self1 <- (if is_bias_node then mutate_bias config self else ret self) ;;
  r <- random ;;
  if ltb r (activation_mutate_rate config) then
    random_function <- choice activations_functions ;;
    ret (set_activation_function self1
           (PyFun (get_activation_function (PyStr random_function))))
  else ret self1.

(** [Node.clone]: the constructor call allocates an object at an
    identity not in use. *)
Definition clone (h : store num) (self : loc) : option (loc * store num) :=
  s ← h !! self;
  let l := fresh (dom h) in
  Some (l, <[l := Node__init__ (node_id s) (activation_function s) (layer s)]> h).

End NodeCode.

(** ** Vocabulary of the statements *)

Section Vocabulary.

Context {num : Type}.
Variables add mul : num -> num -> num.

(** The accumulator [acc] of the object [l] after a node whose output is
    [out] has walked its connections [cs]: one addition of
    [weight * out] for every enabled connection that points to [l], in
    list order. *)
Fixpoint input_after (l : loc) (out : num) (cs : list (ConnectionGene num))
    (acc : num) : num :=
  match cs with
  | [] => acc
  | c :: cs' =>
      input_after l out cs'
        (if enabled c && Nat.eqb (gene_to_node c) l
         then add acc (mul (weight c) out) else acc)
  end.

(** Whether [numpy.random.uniform], resp. [numpy.random.normal], is among
    the calls: [mutate] calls the first in its replace branch only and
    the second in its perturb branch only. *)
Fixpoint has_uniform (calls : @history num) : bool :=
  match calls with
  | [] => false
  | Call_uniform _ _ :: _ => true
  | _ :: calls' => has_uniform calls'
  end.

Fixpoint has_normal (calls : @history num) : bool :=
  match calls with
  | [] => false
  | Call_normal _ _ :: _ => true
  | _ :: calls' => has_normal calls'
  end.

(** The innovation numbers of a list of genes. *)
Definition innovations (gs : list (ConnectionGene num)) : list Z :=
  map gene_innovation_nb gs.

End Vocabulary.

(** ** A rational interpretation

    Numbers as rationals with exact arithmetic, used to run the
    definitions on concrete objects. *)

Definition Q_of_int (z : Z) : Q := inject_Z z.

Definition Q_ltb (a b : Q) : bool := negb (Qle_bool b a).

(** A stand-in for the module [activation_functions], which is not among
    the sources: every callable shifts its argument by an amount of its
    own, so that the results of different callables differ. *)
Definition Q_shift (f : ActFn) : Z :=
  match f with
  | elu => 1 | leaky_relu => 2 | linear => 3 | prelu => 4 | relu => 5
  | sigmoid => 6 | softmax => 7 | step => 8 | swish => 9 | tanh => 10
  end.

Definition Q_activation (f : ActFn) (x : Q) : Q := Qplus x (inject_Z (Q_shift f)).

(** Scripted generators: [random] returns 0, [uniform] its lower bound,
    [normal] its mean, [choice] the fourth element. *)
Definition Q_draw (tr : @history Q) (c : @rand_call Q) : Q :=
  match c with
  | Call_random => inject_Z 0
  | Call_uniform low _ => low
  | Call_normal mean _ => mean
  | Call_choice _ => inject_Z 0
  end.

Definition Q_pick (tr : @history Q) (seq : list string) : string :=
  nth 3 seq EmptyString.

(** *** Concrete objects *)

Definition gene (f t : loc) (w : Z) (nb : Z) (en : bool) : ConnectionGene Q :=
  {| gene_from_node := f; gene_to_node := t; weight := inject_Z w;
     gene_innovation_nb := nb; enabled := en |}.

Arguments gene (f t)%_nat_scope (w nb)%_Z_scope en.

(** Node 0 on layer 0 with output 1 and two connections to node 1, the
    first disabled, the second enabled; node 1 on layer 1; node 2 on
    layer 1 with input 4 and the name ["relu"]. *)
Definition node_a : Node Q :=
  {| node_id := 0; input_sum := inject_Z 0; output_value := inject_Z 1;
     output_connections := [gene 0 1 2 1 false; gene 0 1 3 2 true];
     layer := 0; activation_function := PyStr "sigmoid" |}.

Definition node_b : Node Q :=
  {| node_id := 1; input_sum := inject_Z 0; output_value := inject_Z 0;
     output_connections := []; layer := 1;
     activation_function := PyStr "sigmoid" |}.

Definition node_c : Node Q :=
  {| node_id := 2; input_sum := inject_Z 4; output_value := inject_Z 0;
     output_connections := []; layer := 1;
     activation_function := PyStr "relu" |}.

Definition store_abc : store Q :=
  <[0%nat := node_a]> (<[1%nat := node_b]> (<[2%nat := node_c]> ∅)).

(** A genome whose two genes carry the same innovation number, and a
    registry entry that stores two different ones. *)
Definition genome_dup : Genome Q :=
  {| genes := [gene 0 1 2 1 true; gene 0 1 3 1 true] |}.

Definition entry_12 : ConnectionHistory :=
  ConnectionHistory__init__ 0%nat 1%nat 3 [1; 2].

(** The genome of the unit test: one gene with innovation number 1. *)
Definition genome_one : Genome Q :=
  {| genes := [gene 0 1 2 1 true] |}.

Definition entry_1 : ConnectionHistory :=
  ConnectionHistory__init__ 0%nat 1%nat 1 [1].

(** Bias between -1 and 1; every rate 1, so that with [Q_draw] the
    replace branch and the activation branch are taken. *)
Definition config_replace : NeatConfig Q :=
  {| bias_replace_rate := inject_Z 1; bias_min_value := inject_Z (-1);
     bias_max_value := inject_Z 1; bias_mutate_rate := inject_Z 1;
     bias_init_mean := inject_Z 0; bias_init_stdev := inject_Z 1;
     activation_mutate_rate := inject_Z 1 |}.

(** The same with replace rate 0 and mean 100: the perturb branch is
    taken and the perturbed value exceeds the upper bound. *)
Definition config_perturb : NeatConfig Q :=
  {| bias_replace_rate := inject_Z 0; bias_min_value := inject_Z (-1);
     bias_max_value := inject_Z 1; bias_mutate_rate := inject_Z 1;
     bias_init_mean := inject_Z 100; bias_init_stdev := inject_Z 1;
     activation_mutate_rate := inject_Z 1 |}.

(** ** Rationals with a value that is not a number

    Python's floats contain NaN: arithmetic with it yields it and every
    comparison with it is false.  [None] stands for it. *)

Definition QN := option Q.

Definition QN_of_int (z : Z) : QN := Some (inject_Z z).

Definition QN_add (a b : QN) : QN :=
  match a, b with
  | Some x, Some y => Some (Qplus x y)
  | _, _ => None
  end.

Definition QN_div (a b : QN) : QN :=
  match a, b with
  | Some x, Some y => Some (Qdiv x y)
  | _, _ => None
  end.

Definition QN_ltb (a b : QN) : bool :=
  match a, b with
  | Some x, Some y => Q_ltb x y
  | _, _ => false
  end.

Definition QN_le (a b : QN) : Prop :=
  match a, b with
  | Some x, Some y => Qle x y
  | _, _ => False
  end.

Definition QN_draw (tr : @history QN) (c : @rand_call QN) : QN :=
  match c with
  | Call_random => Some (inject_Z 0)
  | Call_uniform low _ => low
  | Call_normal mean _ => mean
  | Call_choice _ => Some (inject_Z 0)
  end.

Definition QN_pick (tr : @history QN) (seq : list string) : string :=
  nth 3 seq EmptyString.

(** Bias between -1 and 1, replace rate 0 and mutate rate 1: with
    [QN_draw] the perturb branch is taken. *)
Definition config_nan : NeatConfig QN :=
  {| bias_replace_rate := QN_of_int 0; bias_min_value := QN_of_int (-1);
     bias_max_value := QN_of_int 1; bias_mutate_rate := QN_of_int 1;
     bias_init_mean := QN_of_int 0; bias_init_stdev := QN_of_int 1;
     activation_mutate_rate := QN_of_int 1 |}.

(** A bias node whose output is NaN. *)
Definition node_nan : Node QN :=
  {| node_id := 0; input_sum := QN_of_int 0; output_value := None;
     output_connections := []; layer := 0;
     activation_function := PyStr "sigmoid" |}.

(** *** Vocabulary of the further statements *)

Section Wiring.

Context {num : Type}.

(** The attributes of a node that make up the topology of the network:
    everything but the two numbers [input_sum] and [output_value]. *)
Definition wiring (n : Node num) : Z * Z * list (ConnectionGene num) * pyval :=
  (node_id n, layer n, output_connections n, activation_function n).

(** Every connection of every node in the store points to a node in the
    store, as every reference of a running program does. *)
Definition closed (h : store num) : Prop :=
  forall l n c, h !! l = Some n -> In c (output_connections n) ->
                is_Some (h !! gene_to_node c).

End Wiring.

(** Bounds the wrong way round, 1 above and -1 below; replace rate 0 and
    mutate rate 1, so that with [Q_draw] the perturb branch is taken. *)
Definition config_inverted : NeatConfig Q :=
  {| bias_replace_rate := inject_Z 0; bias_min_value := inject_Z 1;
     bias_max_value := inject_Z (-1); bias_mutate_rate := inject_Z 1;
     bias_init_mean := inject_Z 0; bias_init_stdev := inject_Z 1;
     activation_mutate_rate := inject_Z 1 |}.

(** Node 0 feeds node 1 through one enabled connection of weight 3;
    node 1 sits on layer 1 with the name ["tanh"]. *)
Definition node_src : Node Q :=
  {| node_id := 0; input_sum := inject_Z 0; output_value := inject_Z 2;
     output_connections := [gene 0 1 3 1 true];
     layer := 0; activation_function := PyStr "sigmoid" |}.

Definition node_dst : Node Q :=
  {| node_id := 1; input_sum := inject_Z 5; output_value := inject_Z 0;
     output_connections := []; layer := 1;
     activation_function := PyStr "tanh" |}.

Definition store_pair : store Q :=
  <[0%nat := node_src]> (<[1%nat := node_dst]> ∅).

(** ** What the loops compute *)

Section LoopFacts.

Context {num : Type}.

Lemma py_in_In (x : Z) (xs : list Z) : py_in x xs = true <-> In x xs.
Proof.
  induction xs as [|y ys IH]; simpl.
  - split; [discriminate | tauto].
  - destruct (Z.eqb_spec x y) as [->|Hne].
    + split; auto.
    + rewrite IH. split; [auto | intros [Heq|Hin]; congruence].
Qed.

Lemma matches_loop_true (stored : list Z) (gs : list (ConnectionGene num)) :
  matches_loop stored gs = true <->
  forall g, In g gs -> In (gene_innovation_nb g) stored.
Proof.
  induction gs as [|g gs IH]; simpl.
  - split; [intros _ g [] | reflexivity].
  - destruct (py_in (gene_innovation_nb g) stored) eqn:Hg; simpl.
    + apply py_in_In in Hg. rewrite IH. split.
      * intros Hall g' [<-|Hin]; auto.
      * intros Hall g' Hin. apply Hall. now right.
    + split; [discriminate|]. intros Hall.
      assert (Hin : In (gene_innovation_nb g) stored) by (apply Hall; now left).
      apply py_in_In in Hin. congruence.
Qed.

Lemma is_connected_loop_true (target : loc) (cs : list (ConnectionGene num)) :
  is_connected_loop target cs = true <->
  exists c, In c cs /\ gene_to_node c = target.
Proof.
  induction cs as [|c cs IH]; simpl.
  - split; [discriminate | intros (c & [] & _)].
  - destruct (Nat.eqb_spec (gene_to_node c) target) as [Heq|Hne].
    + split; [|reflexivity]. intros _. exists c. auto.
    + rewrite IH. split.
      * intros (c' & Hin & Hc'). exists c'. auto.
      * intros (c' & [<-|Hin] & Hc'); [congruence|]. exists c'. auto.
Qed.

End LoopFacts.

(** ** connection_history.py: [matches] *)

Section MatchesFacts.

Context {num : Type}.

Implicit Types (h : store num) (self : ConnectionHistory) (genome : Genome num).

(** [matches] answers [True] exactly when all three tests pass. *)
Lemma matches_true h self genome f t :
  matches h self genome f t = Some true <->
  exists nf nsf nt nst,
    h !! f = Some nf /\ h !! from_node self = Some nsf /\
    h !! t = Some nt /\ h !! to_node self = Some nst /\
    length (genes genome) = length (innovation_nbs self) /\
    node_id nf = node_id nsf /\ node_id nt = node_id nst /\
    matches_loop (innovation_nbs self) (genes genome) = true.
Proof.
  unfold matches.
  destruct (Nat.eqb_spec (length (genes genome)) (length (innovation_nbs self)))
    as [Hlen|Hlen].
  2:{ split; [discriminate|]. intros (?&?&?&?&?&?&?&?&?&?). contradiction. }
  destruct (h !! f) as [nf|] eqn:Hf; simpl.
  2:{ split; [discriminate|]. intros (?&?&?&?&?&?). discriminate. }
  destruct (h !! from_node self) as [nsf|] eqn:Hsf; simpl.
  2:{ split; [discriminate|]. intros (?&?&?&?&?&?&?). discriminate. }
  destruct (Z.eqb_spec (node_id nf) (node_id nsf)) as [Hid|Hid]; simpl.
  2:{ split; [discriminate|].
      intros (?&?&?&?&[= <-]&[= <-]&?&?&?&?&?). contradiction. }
  destruct (h !! t) as [nt|] eqn:Ht; simpl.
  2:{ split; [discriminate|]. intros (?&?&?&?&?&?&?&?). discriminate. }
  destruct (h !! to_node self) as [nst|] eqn:Hst; simpl.
  2:{ split; [discriminate|]. intros (?&?&?&?&?&?&?&?&?). discriminate. }
  destruct (Z.eqb_spec (node_id nt) (node_id nst)) as [Hid'|Hid'].
  2:{ split; [discriminate|].
      intros (?&?&?&?&?&?&[= <-]&[= <-]&?&?&?&?). contradiction. }
  split.
  - intros [= Hloop]. exists nf, nsf, nt, nst. auto 10.
  - intros (?&?&?&?&?&?&?&?&?&?&?&Hloop). now rewrite Hloop.
Qed.

(** C1. For every genome [g] and nodes [f] and [t], [matches (g, f, t)]
    returns a boolean, and it returns true if and only if the number of
    genes of [g] equals the length of the stored list of innovation
    numbers, the id of [f] equals the id of the stored from-node, the id
    of [t] equals the id of the stored to-node, and the innovation number
    of every gene of [g] is a member of the stored list. *)
Theorem matches_iff h self genome f t nf nt nsf nst :
  h !! f = Some nf -> h !! t = Some nt ->
  h !! from_node self = Some nsf -> h !! to_node self = Some nst ->
  (exists b, matches h self genome f t = Some b) /\
  (matches h self genome f t = Some true <->
   length (genes genome) = length (innovation_nbs self) /\
   node_id nf = node_id nsf /\
   node_id nt = node_id nst /\
   forall g, In g (genes genome) ->
             In (gene_innovation_nb g) (innovation_nbs self)).
Proof.
  intros Hf Ht Hsf Hst. split.
  - unfold matches. rewrite Hf, Ht, Hsf, Hst. simpl.
    destruct (_ =? _)%nat; [|eauto].
    destruct (negb _); [eauto|]. destruct (_ =? _); eauto.
  - rewrite matches_true. split.
    + intros (nf' & nsf' & nt' & nst' & Hf' & Hsf' & Ht' & Hst' & Hlen & Hi1 & Hi2 & Hloop).
      assert (nf' = nf) by congruence. assert (nsf' = nsf) by congruence.
      assert (nt' = nt) by congruence. assert (nst' = nst) by congruence.
      subst. rewrite matches_loop_true in Hloop. auto.
    + intros (Hlen & Hi1 & Hi2 & Hall).
      exists nf, nsf, nt, nst. rewrite matches_loop_true. auto 10.
Qed.

(** C2, amended. For every genome [g] whose genes carry pairwise distinct
    innovation numbers and for nodes [f] and [t], [matches (g, f, t)]
    returns true only if the innovation numbers of the genes of [g] and
    the stored list have the same members: every stored number occurs
    among the genes, and every gene's number is stored. *)
Theorem matches_same_members h self genome f t :
  List.NoDup (innovations (genes genome)) ->
  matches h self genome f t = Some true ->
  forall x, In x (innovation_nbs self) <-> In x (innovations (genes genome)).
Proof.
  intros Hnd Hm x. apply matches_true in Hm.
  destruct Hm as (_ & _ & _ & _ & _ & _ & _ & _ & Hlen & _ & _ & Hloop).
  rewrite matches_loop_true in Hloop.
  assert (Hincl : incl (innovations (genes genome)) (innovation_nbs self)).
  { intros y Hy. unfold innovations in Hy. apply in_map_iff in Hy.
    destruct Hy as (g & <- & Hg). auto. }
  split; [|apply Hincl].
  apply (NoDup_length_incl Hnd); [|exact Hincl].
  unfold innovations. rewrite length_map. lia.
Qed.

End MatchesFacts.

(** ** node.py: [get_activation_function], [is_connected_to], [clone] *)

Section NodeFacts.

Context {num : Type}.
Variable of_int : Z -> num.

Implicit Types (h : store num) (n : Node num).

Local Ltac name_case s lit f H :=
  destruct (String.eqb_spec s lit) as [->|_];
  [exfalso; exact (H f eq_refl)|].

(** The table of [get_activation_function] on strings and on values with
    default equality: the function of the same name for each of the ten
    names, sigmoid for everything else. *)
Theorem get_activation_function_table :
  (forall f, get_activation_function (PyStr (name_of f)) = f) /\
  (forall v, (forall f, v <> PyStr (name_of f)) ->
             get_activation_function v = sigmoid).
Proof.
  split.
  - intros f. destruct f; reflexivity.
  - intros v H. destruct v as [s| | |]; try reflexivity.
    unfold get_activation_function, py_eq_str.
    name_case s "elu"%string elu H.
    name_case s "leaky_relu"%string leaky_relu H.
    name_case s "linear"%string linear H.
    name_case s "prelu"%string prelu H.
    name_case s "relu"%string relu H.
    destruct (String.eqb_spec s "sigmoid"); [reflexivity|].
    name_case s "softmax"%string softmax H.
    name_case s "step"%string step H.
    name_case s "swish"%string swish H.
    name_case s "tanh"%string tanh H.
    reflexivity.
Qed.

(** C7. [a.is_connected_to (b)] returns false when the two layers are
    equal; when they differ it returns true if and only if some gene,
    enabled or not, among the output connections of the node on the lower
    layer has the node on the higher layer as its [to_node]. *)
Theorem is_connected_to_spec h a b na nb :
  h !! a = Some na -> h !! b = Some nb ->
  (layer na = layer nb -> is_connected_to h a b = Some false) /\
  (layer na <> layer nb ->
   let lower := if layer nb <? layer na then nb else na in
   let higher := if layer nb <? layer na then a else b in
   exists r, is_connected_to h a b = Some r /\
     (r = true <->
      exists c, In c (output_connections lower) /\ gene_to_node c = higher)).
Proof.
  intros Ha Hb. unfold is_connected_to. rewrite Ha, Hb. simpl. split.
  - intros Heq. rewrite Heq, Z.eqb_refl. reflexivity.
  - intros Hne. destruct (Z.eqb_spec (layer nb) (layer na)); [congruence|].
    destruct (layer nb <? layer na); eexists; split; try reflexivity;
      apply is_connected_loop_true.
Qed.

(** C10. [is_connected_to] is symmetric: [a.is_connected_to (b)] and
    [b.is_connected_to (a)] are the same result for all [a] and [b]. *)
Theorem is_connected_to_sym h a b :
  is_connected_to h a b = is_connected_to h b a.
Proof.
  unfold is_connected_to.
  destruct (h !! a) as [na|], (h !! b) as [nb|]; simpl; try reflexivity.
  destruct (Z.eqb_spec (layer nb) (layer na)) as [Heq|Hne].
  - rewrite Heq, Z.eqb_refl. reflexivity.
  - destruct (Z.eqb_spec (layer na) (layer nb)); [congruence|].
    destruct (Z.ltb_spec (layer nb) (layer na)),
             (Z.ltb_spec (layer na) (layer nb)); try reflexivity; lia.
Qed.

Lemma clone_fresh h self l h' :
  clone of_int h self = Some (l, h') -> h !! l = None.
Proof.
  unfold clone. destruct (h !! self); simpl; [|discriminate].
  intros [= <- _]. apply not_elem_of_dom. apply is_fresh.
Qed.

(** C8. [n.clone ()] returns a new node, an object that did not exist
    before, whose id, activation function and layer are those of [n] and
    whose list of output connections is empty; no existing object is
    touched. *)
Theorem clone_copies h self n :
  h !! self = Some n ->
  exists l h' n',
    clone of_int h self = Some (l, h') /\
    h !! l = None /\ h' !! l = Some n' /\
    node_id n' = node_id n /\
    activation_function n' = activation_function n /\
    layer n' = layer n /\
    output_connections n' = [] /\
    (forall l', l' <> l -> h' !! l' = h !! l').
Proof.
  intros Hn.
  destruct (clone of_int h self) as [[l h']|] eqn:Hc.
  2:{ unfold clone in Hc. rewrite Hn in Hc. discriminate. }
  pose proof (clone_fresh _ _ _ _ Hc) as Hfresh.
  unfold clone in Hc. rewrite Hn in Hc. simpl in Hc.
  injection Hc as Hl Hh'. rewrite Hl in Hh'. subst h'.
  eexists l, _, _. split; [reflexivity|]. split; [exact Hfresh|].
  split; [apply lookup_insert_eq|]. repeat split.
  intros l' Hne. apply lookup_insert_ne. congruence.
Qed.

(** C9. The node returned by [n.clone ()] has [input_sum] 0 and
    [output_value] 0 whatever the values of [n] are; a stored bias
    output is not carried over. *)
Theorem clone_resets h self n :
  h !! self = Some n ->
  exists l h' n',
    clone of_int h self = Some (l, h') /\ h' !! l = Some n' /\
    input_sum n' = of_int 0 /\ output_value n' = of_int 0.
Proof.
  intros Hn. unfold clone. rewrite Hn. simpl.
  eexists _, _, _. split; [reflexivity|].
  split; [apply lookup_insert_eq|]. split; reflexivity.
Qed.

End NodeFacts.

(** ** node.py: [engage] *)

Section EngageFacts.

Context {num : Type}.
Variables add mul : num -> num -> num.
Variable activation_functions : ActFn -> num -> num.

Implicit Types (h : store num) (n m : Node num) (cs : list (ConnectionGene num)).

Lemma engage_unfold h self :
  engage add mul activation_functions h self =
  (s ← h !! self;
   let h1 :=
     if negb (layer s =? 0) then
       <[self := set_output_value s
           (activation_functions (get_activation_function (activation_function s))
                                 (input_sum s))]> h
     else h in
   s1 ← h1 !! self;
   engage_loop add mul self (output_connections s1) h1).
Proof. reflexivity. Qed.

Local Abbreviation engage_loop := (engage_loop add mul).
Local Abbreviation engage := (engage add mul activation_functions).
Local Abbreviation input_after := (input_after add mul).

Lemma set_input_sum_same m : set_input_sum m (input_sum m) = m.
Proof. destruct m; reflexivity. Qed.

Lemma input_after_untouched l out cs acc :
  (forall c, In c cs -> enabled c = true -> gene_to_node c <> l) ->
  input_after l out cs acc = acc.
Proof.
  revert acc. induction cs as [|c cs IH]; intros acc Hfree; simpl; [reflexivity|].
  rewrite IH by (intros c' Hin; apply Hfree; now right).
  destruct (enabled c) eqn:Hen; simpl; [|reflexivity].
  destruct (Nat.eqb_spec (gene_to_node c) l) as [Heq|]; [|reflexivity].
  exfalso. apply (Hfree c); auto. now left.
Qed.

(** The loop leaves every object in place and changes nothing but
    accumulators, each by the additions that [input_after] lists. *)
Lemma engage_loop_spec self out cs : forall h,
  (exists s, h !! self = Some s /\ output_value s = out) ->
  (forall c, In c cs -> enabled c = true -> is_Some (h !! gene_to_node c)) ->
  exists h', engage_loop self cs h = Some h' /\
    forall l, h' !! l =
      (fun m => set_input_sum m (input_after l out cs (input_sum m))) <$> h !! l.
Proof.
  induction cs as [|c cs IH]; intros h Hself Hlive; simpl.
  - exists h. split; [reflexivity|]. intros l.
    destruct (h !! l) as [m|]; simpl; [|reflexivity].
    now rewrite set_input_sum_same.
  - destruct (enabled c) eqn:Hen.
    2:{ simpl. apply IH; [exact Hself|].
        intros c' Hin. apply Hlive. now right. }
    destruct (Hlive c (or_introl eq_refl) Hen) as [t Ht].
    destruct Hself as (s & Hs & Hout).
    rewrite Ht, Hs. simpl.
    set (t' := set_input_sum t (add (input_sum t) (mul (weight c) (output_value s)))).
    destruct (IH (<[gene_to_node c := t']> h)) as (h' & Hrun & Hh').
    + destruct (decide (gene_to_node c = self)) as [Heq|Hne].
      * exists t'. rewrite Heq, lookup_insert_eq. split; [reflexivity|].
        assert (t = s) by congruence. subst t. exact Hout.
      * exists s. rewrite lookup_insert_ne by exact Hne. auto.
    + intros c' Hin Hen'. apply lookup_insert_is_Some'. right.
      apply Hlive; [now right | exact Hen'].
    + exists h'. split; [exact Hrun|]. intros l. rewrite Hh'.
      destruct (Nat.eqb_spec (gene_to_node c) l) as [Heq|Hne]; simpl.
      * rewrite <- Heq, lookup_insert_eq, Ht. simpl. subst t'. simpl.
        rewrite Hout. reflexivity.
      * rewrite lookup_insert_ne by exact Hne. reflexivity.
Qed.

(** The whole effect of [engage] on the store. *)
Lemma engage_effect h self n :
  h !! self = Some n ->
  (forall c, In c (output_connections n) -> enabled c = true ->
             is_Some (h !! gene_to_node c)) ->
  let out :=
    if layer n =? 0 then output_value n
    else activation_functions (get_activation_function (activation_function n))
                              (input_sum n) in
  exists h' n',
    engage h self = Some h' /\
    h' !! self = Some n' /\
    output_value n' = out /\
    node_id n' = node_id n /\ layer n' = layer n /\
    output_connections n' = output_connections n /\
    activation_function n' = activation_function n /\
    (forall l m, h !! l = Some m ->
       exists m', h' !! l = Some m' /\
         input_sum m' = input_after l out (output_connections n) (input_sum m) /\
         (l <> self -> m' = set_input_sum m (input_sum m'))) /\
    (forall l m, h !! l = Some m ->
       (forall c, In c (output_connections n) -> enabled c = true ->
                  gene_to_node c <> l) ->
       exists m', h' !! l = Some m' /\ input_sum m' = input_sum m).
Proof.
  intros Hn Hlive out.
  set (n1 := if negb (layer n =? 0) then set_output_value n out else n).
  set (h1 := if negb (layer n =? 0) then <[self := n1]> h else h).
  assert (Hn1 : h1 !! self = Some n1).
  { subst h1 n1. destruct (layer n =? 0); simpl; [exact Hn|].
    apply lookup_insert_eq. }
  assert (Hout1 : output_value n1 = out).
  { subst n1 out. destruct (layer n =? 0); reflexivity. }
  assert (Hcs1 : output_connections n1 = output_connections n).
  { subst n1. destruct (layer n =? 0); reflexivity. }
  assert (Hother : forall l, l <> self -> h1 !! l = h !! l).
  { intros l Hne. subst h1. destruct (layer n =? 0); simpl; [reflexivity|].
    apply lookup_insert_ne. congruence. }
  assert (Hrun : engage h self = engage_loop self (output_connections n) h1).
  { rewrite engage_unfold, Hn. simpl. unfold h1, n1, out.
    destruct (layer n =? 0); simpl.
    - rewrite Hn. reflexivity.
    - rewrite lookup_insert_eq. reflexivity. }
  destruct (engage_loop_spec self out (output_connections n) h1) as (h' & Hloop & Hh').
  { exists n1. auto. }
  { intros c Hin Hen. destruct (decide (gene_to_node c = self)) as [->|Hne].
    - rewrite Hn1. eauto.
    - rewrite Hother by exact Hne. auto. }
  assert (Hin_sum : input_sum n1 = input_sum n).
  { subst n1. destruct (layer n =? 0); reflexivity. }
  assert (Hall : forall l m, h !! l = Some m ->
     exists m', h' !! l = Some m' /\
       input_sum m' = input_after l out (output_connections n) (input_sum m) /\
       (l <> self -> m' = set_input_sum m (input_sum m'))).
  { intros l m Hm. rewrite Hh'.
    destruct (decide (l = self)) as [->|Hne].
    - rewrite Hn1. simpl. eexists. split; [reflexivity|]. simpl.
      assert (m = n) by congruence. subst m. rewrite Hin_sum.
      split; [reflexivity | congruence].
    - rewrite Hother, Hm by exact Hne. simpl. eexists.
      split; [reflexivity|]. simpl. auto. }
  exists h', (set_input_sum n1 (input_after self out (output_connections n) (input_sum n1))).
  split; [now rewrite Hrun|].
  split; [now rewrite Hh', Hn1|].
  split; [exact Hout1|].
  split; [subst n1; destruct (layer n =? 0); reflexivity|].
  split; [subst n1; destruct (layer n =? 0); reflexivity|].
  split; [exact Hcs1|].
  split; [subst n1; destruct (layer n =? 0); reflexivity|].
  split; [exact Hall|].
  intros l m Hm Hfree. destruct (Hall l m Hm) as (m' & Hm' & Hsum & _).
  exists m'. split; [exact Hm'|]. rewrite Hsum.
  now apply input_after_untouched.
Qed.

(** C3, amended. For a node [n], [engage] leaves [n.output_value]
    unchanged when [n.layer = 0] and sets it to
    [activation (n.input_sum)] otherwise; then, for every enabled
    connection of [n] in list order, it adds [weight * n.output_value] to
    the [input_sum] of the connection's target.  The [input_sum] of every
    node that is the target of no enabled connection of [n] stays
    unchanged; that includes [n] itself and the targets of disabled
    connections whenever no enabled connection of [n] points to them.
    The id, layer, connection list and activation function of [n] stay
    unchanged, and so does every attribute but [input_sum] of the other
    nodes. *)
Theorem engage_spec h self n :
  h !! self = Some n ->
  (forall c, In c (output_connections n) -> enabled c = true ->
             is_Some (h !! gene_to_node c)) ->
  let out :=
    if layer n =? 0 then output_value n
    else activation_functions (get_activation_function (activation_function n))
                              (input_sum n) in
  exists h' n',
    engage h self = Some h' /\
    h' !! self = Some n' /\
    output_value n' = out /\
    node_id n' = node_id n /\ layer n' = layer n /\
    output_connections n' = output_connections n /\
    activation_function n' = activation_function n /\
    (forall l m, h !! l = Some m ->
       exists m', h' !! l = Some m' /\
         input_sum m' = input_after l out (output_connections n) (input_sum m) /\
         (l <> self -> m' = set_input_sum m (input_sum m'))) /\
    (forall l m, h !! l = Some m ->
       (forall c, In c (output_connections n) -> enabled c = true ->
                  gene_to_node c <> l) ->
       exists m', h' !! l = Some m' /\ input_sum m' = input_sum m).
Proof. exact (engage_effect h self n). Qed.

End EngageFacts.

(** ** node.py: [mutate] *)

Section MutateFacts.

Context {num : Type}.
Variable of_int : Z -> num.
Variables add mul div : num -> num -> num.
Variable ltb : num -> num -> bool.
Variable activation_functions : ActFn -> num -> num.
Variable draw : @history num -> @rand_call num -> num.
Variable pick : @history num -> list string -> string.

Implicit Types (h : store num) (n : Node num) (config : NeatConfig num)
  (tr calls : @history num).

(** [mutate_bias] and [mutate] with the generator calls written out. *)
Lemma mutate_bias_unfold config n tr :
  mutate_bias of_int add div ltb draw config n tr =
  let tr1 := Call_random :: tr in
  if ltb (draw tr Call_random) (bias_replace_rate config) then
    let c := Call_uniform (bias_min_value config) (bias_max_value config) in
    (set_output_value n (draw tr1 c), c :: tr1)
  else
    let tr2 := Call_random :: tr1 in
    if ltb (draw tr1 Call_random) (bias_mutate_rate config) then
      let c := Call_normal (bias_init_mean config) (bias_init_stdev config) in
      let v := add (output_value n) (div (draw tr2 c) (of_int 50)) in
      let v1 := if ltb (bias_max_value config) v then bias_max_value config else v in
      let v2 := if ltb v1 (bias_min_value config) then bias_min_value config else v1 in
      (set_output_value n v2, c :: tr2)
    else (n, tr2).
Proof.
  unfold mutate_bias, bind, random, uniform, normal, ret. simpl.
  destruct (ltb (draw tr Call_random) (bias_replace_rate config)); [reflexivity|].
  destruct (ltb (draw (Call_random :: tr) Call_random) (bias_mutate_rate config));
    [|reflexivity].
  destruct (ltb (bias_max_value config) _); simpl;
    destruct (ltb _ (bias_min_value config)); reflexivity.
Qed.

Lemma mutate_unfold config is_bias_node n tr :
  mutate of_int add div ltb draw pick config is_bias_node n tr =
  let (n1, trb) :=
    if is_bias_node then mutate_bias of_int add div ltb draw config n tr
    else (n, tr) in
  let tr1 := Call_random :: trb in
  if ltb (draw trb Call_random) (activation_mutate_rate config) then
    (set_activation_function n1
       (PyFun (get_activation_function (PyStr (pick tr1 activations_functions)))),
     Call_choice activations_functions :: tr1)
  else (n1, tr1).
Proof.
  unfold mutate, bind at 1. destruct is_bias_node.
  - destruct (mutate_bias _ _ _ _ _ _ _ _) as [n1 trb].
    unfold bind, random, choice, ret. destruct (ltb _ _); reflexivity.
  - unfold bind, random, choice, ret. destruct (ltb _ _); reflexivity.
Qed.

Local Abbreviation mutate_bias := (mutate_bias of_int add div ltb draw).
Local Abbreviation mutate := (mutate of_int add div ltb draw pick).
Local Abbreviation engage := (engage add mul activation_functions).

(** The bias part assigns [output_value] and nothing else. *)
Lemma mutate_bias_frame config n tr :
  let n1 := fst (mutate_bias config n tr) in
  node_id n1 = node_id n /\ input_sum n1 = input_sum n /\
  output_connections n1 = output_connections n /\ layer n1 = layer n /\
  activation_function n1 = activation_function n.
Proof.
  rewrite mutate_bias_unfold. simpl.
  repeat match goal with |- context [if ?b then _ else _] => destruct b end;
    simpl; auto.
Qed.

(** The activation part, read off the last call: [choice] is the last
    call made exactly when the branch was taken, and the attribute then
    holds the callable that [get_activation_function] returned. *)
Lemma mutate_activation config is_bias_node n tr n' rest seq :
  mutate config is_bias_node n tr = (n', Call_choice seq :: rest) ->
  seq = activations_functions /\
  activation_function n' =
    PyFun (get_activation_function (PyStr (pick rest seq))) /\
  input_sum n' = input_sum n /\ layer n' = layer n /\
  output_connections n' = output_connections n.
Proof.
  rewrite mutate_unfold.
  pose proof (mutate_bias_frame config n tr) as Hframe.
  assert (Hn1 : forall n1 trb,
    (if is_bias_node then mutate_bias config n tr else (n, tr)) = (n1, trb) ->
    input_sum n1 = input_sum n /\ layer n1 = layer n /\
    output_connections n1 = output_connections n).
  { intros n1 trb. destruct is_bias_node.
    - intros Heq. rewrite Heq in Hframe. simpl in Hframe. tauto.
    - intros [= <- _]. auto. }
  destruct (if is_bias_node then _ else _) as [n1 trb].
  specialize (Hn1 n1 trb eq_refl). simpl.
  destruct (ltb _ _); intros [= <- <- <-]; simpl; tauto.
Qed.

(** C4, as the code runs. For a node [n] with [n.layer <> 0], when a
    call of [mutate] takes the activation branch and [choice] selects a
    name, the attribute [activation_function] receives the callable of
    that name rather than the name, and a subsequent [engage] computes
    [n.output_value = sigmoid (n.input_sum)] whichever of the ten names
    was selected. *)
Theorem mutate_then_engage_applies_sigmoid config is_bias_node h self n tr n' rest :
  h !! self = Some n ->
  layer n <> 0 ->
  (forall c, In c (output_connections n) -> enabled c = true ->
             is_Some (h !! gene_to_node c)) ->
  mutate config is_bias_node n tr = (n', Call_choice activations_functions :: rest) ->
  let selected := pick rest activations_functions in
  activation_function n' = PyFun (get_activation_function (PyStr selected)) /\
  exists h' n'',
    engage (<[self := n']> h) self = Some h' /\
    h' !! self = Some n'' /\
    output_value n'' = activation_functions sigmoid (input_sum n).
Proof.
  intros Hn Hlayer Hlive Hmut selected.
  destruct (mutate_activation _ _ _ _ _ _ _ Hmut) as (_ & Haf & Hsum & Hlay & Hcs).
  split; [exact Haf|].
  destruct (engage_effect add mul activation_functions (<[self := n']> h) self n')
    as (h' & n'' & Hrun & Hn'' & Hout & _).
  - apply lookup_insert_eq.
  - rewrite Hcs. intros c Hin Hen. apply lookup_insert_is_Some'. right. auto.
  - exists h', n''. split; [exact Hrun|]. split; [exact Hn''|].
    rewrite Hout, Hlay, Haf, Hsum.
    destruct (Z.eqb_spec (layer n) 0); [contradiction | reflexivity].
Qed.

Section Bounds.

(** The order behind [<], and the contract of [numpy.random.uniform]:
    with [low <= high] the sample lies between the two. *)
Variable le : num -> num -> Prop.
Hypothesis le_refl : forall a, le a a.
Hypothesis ltb_false_le : forall a b, ltb a b = false -> le b a.
Hypothesis le_ltb_false : forall a b, le a b -> ltb b a = false.
Hypothesis uniform_range : forall tr low high,
  le low high ->
  le low (draw tr (Call_uniform low high)) /\
  le (draw tr (Call_uniform low high)) high.

Lemma mutate_bias_calls config n tr :
  le (bias_min_value config) (bias_max_value config) ->
  exists calls n1,
    mutate_bias config n tr = (n1, calls ++ tr) /\
    has_uniform calls && has_normal calls = false /\
    (has_uniform calls || has_normal calls = true ->
     le (bias_min_value config) (output_value n1) /\
     le (output_value n1) (bias_max_value config)).
Proof.
  intros Hle.
  rewrite mutate_bias_unfold. simpl.
  destruct (ltb (draw tr Call_random) (bias_replace_rate config)).
  { eexists [Call_uniform _ _; Call_random], _.
    split; [reflexivity|]. split; [reflexivity|]. intros _. simpl.
    now apply uniform_range. }
  destruct (ltb (draw (Call_random :: tr) Call_random) (bias_mutate_rate config)).
  2:{ eexists [Call_random; Call_random], _.
      split; [reflexivity|]. split; [reflexivity|]. discriminate. }
  eexists [Call_normal _ _; Call_random; Call_random], _.
  split; [reflexivity|]. split; [reflexivity|]. intros _. simpl.
  match goal with |- context [ltb (bias_max_value config) ?v] =>
    destruct (ltb (bias_max_value config) v) eqn:Hmax end; simpl.
  - rewrite (le_ltb_false _ _ Hle). simpl. auto.
  - apply ltb_false_le in Hmax.
    match goal with |- context [ltb ?v (bias_min_value config)] =>
      destruct (ltb v (bias_min_value config)) eqn:Hmin end; simpl; auto.
Qed.

(** Under the assumptions of this section on the order and on
    [uniform], and with [bias_min_value <= bias_max_value], a call of
    [mutate] on a bias node takes at most one of the two bias branches
    and ends within the bounds when it takes one. *)
Theorem mutate_bias_exclusive_bounded config n tr :
  le (bias_min_value config) (bias_max_value config) ->
  exists calls n',
    mutate config true n tr = (n', calls ++ tr) /\
    has_uniform calls && has_normal calls = false /\
    (has_uniform calls || has_normal calls = true ->
     le (bias_min_value config) (output_value n') /\
     le (output_value n') (bias_max_value config)).
Proof.
  intros Hle.
  destruct (mutate_bias_calls config n tr Hle) as (calls & n1 & Hb & Hex & Hin).
  rewrite mutate_unfold, Hb. simpl.
  destruct (ltb _ (activation_mutate_rate config)).
  - eexists (Call_choice activations_functions :: Call_random :: calls), _.
    split; [reflexivity|]. simpl. auto.
  - eexists (Call_random :: calls), _. split; [reflexivity|]. simpl. auto.
Qed.

End Bounds.

End MutateFacts.

(** ** The definitions at work on concrete objects *)

(** The unit tests of [ConnectionHistory]: the genome with the single
    innovation number 1 matches the entry that stores [[1]], does not
    match when the entry stores [[2]], and does not match for another
    target node. *)
Example matches_existing_connection :
  matches store_abc entry_1 genome_one 0%nat 1%nat = Some true.
Proof. reflexivity. Qed.

Example matches_not_same_genome :
  matches store_abc (ConnectionHistory__init__ 0%nat 1%nat 1 [2])
          genome_one 0%nat 1%nat = Some false.
Proof. reflexivity. Qed.

Example matches_non_existing_connection :
  matches store_abc entry_1 genome_one 0%nat 2%nat = Some false.
Proof. reflexivity. Qed.

Lemma matches_iff_witness :
  matches store_abc entry_1 genome_one 0%nat 1%nat = Some true <->
  length (genes genome_one) = length (innovation_nbs entry_1) /\
  node_id node_a = node_id node_a /\
  node_id node_b = node_id node_b /\
  forall g, In g (genes genome_one) ->
            In (gene_innovation_nb g) (innovation_nbs entry_1).
Proof.
  apply (matches_iff store_abc entry_1 genome_one 0%nat 1%nat
           node_a node_b node_a node_b); reflexivity.
Defined.

(** C2, as stated, fails: with two genes that both carry innovation
    number 1 and the stored list [[1; 2]], the lengths agree and every
    gene's number is stored, so [matches] returns true, yet the stored
    number 2 occurs in no gene. *)
Lemma matches_members_counterexample :
  matches store_abc entry_12 genome_dup 0%nat 1%nat = Some true /\
  In 2 (innovation_nbs entry_12) /\
  ~ In 2 (innovations (genes genome_dup)).
Proof.
  split; [reflexivity|]. split; [simpl; auto|].
  simpl. intros [H|[H|[]]]; discriminate H.
Qed.

Lemma matches_same_members_witness :
  List.NoDup (innovations (genes genome_one)) /\
  forall x, In x (innovation_nbs entry_1) <-> In x (innovations (genes genome_one)).
Proof.
  assert (Hnd : List.NoDup (innovations (genes genome_one))).
  { simpl. constructor; [intros []|constructor]. }
  split; [exact Hnd|].
  apply (matches_same_members store_abc entry_1 genome_one 0%nat 1%nat Hnd).
  reflexivity.
Defined.

Lemma get_activation_function_table_witness :
  get_activation_function (PyFun relu) = sigmoid /\
  get_activation_function (PyStr "gelu") = sigmoid.
Proof.
  split; apply (proj2 get_activation_function_table);
    intros f; destruct f; discriminate.
Defined.

Lemma is_connected_to_spec_witness :
  exists r, is_connected_to store_abc 1%nat 0%nat = Some r /\
    (r = true <->
     exists c, In c (output_connections node_a) /\ gene_to_node c = 1%nat).
Proof.
  apply (proj2 (is_connected_to_spec store_abc 1%nat 0%nat node_b node_a
                  eq_refl eq_refl)).
  discriminate.
Defined.

Lemma clone_copies_witness :
  exists l h' n',
    clone Q_of_int store_abc 0%nat = Some (l, h') /\
    store_abc !! l = None /\ h' !! l = Some n' /\
    node_id n' = node_id node_a /\
    activation_function n' = activation_function node_a /\
    layer n' = layer node_a /\
    output_connections n' = [] /\
    (forall l', l' <> l -> h' !! l' = store_abc !! l').
Proof. apply (clone_copies Q_of_int store_abc 0%nat node_a). reflexivity. Defined.

Lemma clone_resets_witness :
  exists l h' n',
    clone Q_of_int store_abc 0%nat = Some (l, h') /\ h' !! l = Some n' /\
    input_sum n' = inject_Z 0 /\ output_value n' = inject_Z 0.
Proof. apply (clone_resets Q_of_int store_abc 0%nat node_a). reflexivity. Defined.

(** C3, as stated, fails: node 0 has a disabled and an enabled
    connection to node 1; after [engage] the [input_sum] of node 1, the
    target of the disabled connection, has gone from 0 to 3. *)
Lemma engage_disabled_target_counterexample :
  exists h',
    engage Qplus Qmult Q_activation store_abc 0%nat = Some h' /\
    exists c, In c (output_connections node_a) /\ enabled c = false /\
      input_sum <$> h' !! gene_to_node c = Some (inject_Z 3) /\
      input_sum <$> store_abc !! gene_to_node c = Some (inject_Z 0) /\
      input_sum <$> h' !! gene_to_node c <>
      input_sum <$> store_abc !! gene_to_node c.
Proof.
  eexists. split; [vm_compute; reflexivity|].
  exists (gene 0 1 2 1 false).
  split; [now left|]. split; [reflexivity|].
  split; [reflexivity|]. split; [reflexivity|]. discriminate.
Qed.

Lemma engage_spec_witness :
  exists h' n',
    engage Qplus Qmult Q_activation store_abc 0%nat = Some h' /\
    h' !! 0%nat = Some n' /\
    output_value n' = output_value node_a /\
    input_sum n' = input_sum node_a /\
    exists m', h' !! 1%nat = Some m' /\
      input_sum m' = Qplus (input_sum node_b) (Qmult (inject_Z 3) (inject_Z 1)).
Proof.
  destruct (engage_spec Qplus Qmult Q_activation store_abc 0%nat node_a eq_refl)
    as (h' & n' & Hrun & Hn' & Hout & _ & _ & _ & _ & Hall & Hfree).
  - intros c [<-|[<-|[]]]; [discriminate|]. intros _. exists node_b. reflexivity.
  - exists h', n'. split; [exact Hrun|]. split; [exact Hn'|].
    split; [exact Hout|]. split.
    + destruct (Hfree 0%nat node_a eq_refl) as (m' & Hm' & Hsum).
      * intros c [<-|[<-|[]]] _; discriminate.
      * congruence.
    + destruct (Hall 1%nat node_b eq_refl) as (m' & Hm' & Hsum & _).
      exists m'. split; [exact Hm'|]. exact Hsum.
Defined.

(** The failing run of C4: [choice] selects ["relu"], the node on layer 1
    has input 4, and [engage] stores what the stand-in for sigmoid
    returns, not what the stand-in for relu returns. *)
Example mutate_selects_relu :
  mutate Q_of_int Qplus Qdiv Q_ltb Q_draw Q_pick config_replace false node_c [] =
  (set_activation_function node_c (PyFun relu),
   [Call_choice activations_functions; Call_random]) /\
  Q_pick [Call_random] activations_functions = "relu"%string.
Proof. split; reflexivity. Qed.

Lemma mutate_then_engage_witness :
  exists h' n'',
    engage Qplus Qmult Q_activation
      (<[2%nat := set_activation_function node_c (PyFun relu)]> store_abc) 2%nat
      = Some h' /\
    h' !! 2%nat = Some n'' /\
    output_value n'' = Q_activation sigmoid (inject_Z 4) /\
    output_value n'' <> Q_activation relu (inject_Z 4).
Proof.
  destruct (mutate_then_engage_applies_sigmoid Q_of_int Qplus Qmult Qdiv Q_ltb
              Q_activation Q_draw Q_pick config_replace false store_abc 2%nat
              node_c [] (set_activation_function node_c (PyFun relu)) [Call_random])
    as (_ & h' & n'' & Hrun & Hn'' & Hout).
  - reflexivity.
  - discriminate.
  - intros c [].
  - reflexivity.
  - exists h', n''. split; [exact Hrun|]. split; [exact Hn''|].
    split; [exact Hout|]. rewrite Hout. discriminate.
Defined.

(** The rationals meet the assumptions on the order, and the scripted
    [uniform] those on the generator. *)
Lemma Q_ltb_false_le (a b : Q) : Q_ltb a b = false -> Qle b a.
Proof.
  unfold Q_ltb. intros H. apply negb_false_iff in H. now apply Qle_bool_iff.
Qed.

Lemma Q_le_ltb_false (a b : Q) : Qle a b -> Q_ltb b a = false.
Proof.
  unfold Q_ltb. intros H. apply negb_false_iff. now apply Qle_bool_iff.
Qed.

Lemma Q_uniform_range (tr : @history Q) (low high : Q) :
  Qle low high ->
  Qle low (Q_draw tr (Call_uniform low high)) /\
  Qle (Q_draw tr (Call_uniform low high)) high.
Proof. intros H. simpl. split; [apply Qle_refl | exact H]. Qed.

Lemma mutate_bias_exclusive_bounded_witness :
  Qle (bias_min_value config_perturb) (bias_max_value config_perturb) /\
  exists calls n',
    mutate Q_of_int Qplus Qdiv Q_ltb Q_draw Q_pick config_perturb true node_a []
      = (n', calls ++ []) /\
    has_uniform calls && has_normal calls = false /\
    (has_uniform calls || has_normal calls = true ->
     Qle (bias_min_value config_perturb) (output_value n') /\
     Qle (output_value n') (bias_max_value config_perturb)).
Proof.
  assert (Hle : Qle (bias_min_value config_perturb) (bias_max_value config_perturb))
    by discriminate.
  split; [exact Hle|].
  exact (mutate_bias_exclusive_bounded Q_of_int Qplus Qdiv Q_ltb Q_draw Q_pick
           Qle Qle_refl Q_ltb_false_le Q_le_ltb_false Q_uniform_range
           config_perturb node_a [] Hle).
Defined.

(** The two bias branches on concrete draws: replacing stores the sample
    of [uniform]; perturbing from 1 by 100 / 50 is cut back to the upper
    bound 1. *)
Example mutate_replaces :
  mutate Q_of_int Qplus Qdiv Q_ltb Q_draw Q_pick config_replace true node_a [] =
  (set_activation_function (set_output_value node_a (inject_Z (-1))) (PyFun relu),
   [Call_choice activations_functions; Call_random;
    Call_uniform (inject_Z (-1)) (inject_Z 1); Call_random]).
Proof. reflexivity. Qed.

Example mutate_perturbs :
  mutate Q_of_int Qplus Qdiv Q_ltb Q_draw Q_pick config_perturb true node_a [] =
  (set_activation_function (set_output_value node_a (inject_Z 1)) (PyFun relu),
   [Call_choice activations_functions; Call_random;
    Call_normal (inject_Z 100) (inject_Z 1); Call_random; Call_random]).
Proof. reflexivity. Qed.

(** ** Further properties of [matches] *)

Section MatchesMore.

Context {num : Type}.
Variable of_int : Z -> num.

Implicit Types (h : store num) (self e : ConnectionHistory) (g : Genome num).

Lemma matches_loop_forallb (stored : list Z) (gs : list (ConnectionGene num)) :
  matches_loop stored gs = forallb (fun x => py_in x stored) (innovations gs).
Proof.
  induction gs as [|c gs IH]; simpl; [reflexivity|].
  destruct (py_in (gene_innovation_nb c) stored); simpl; auto.
Qed.

Lemma forallb_perm {A} (p : A -> bool) (xs ys : list A) :
  Permutation xs ys -> forallb p xs = forallb p ys.
Proof.
  induction 1 as [|x xs ys _ IH|x y xs|xs ys zs _ IH1 _ IH2]; simpl.
  - reflexivity.
  - now rewrite IH.
  - destruct (p x), (p y); reflexivity.
  - congruence.
Qed.

Lemma py_in_perm (x : Z) (xs ys : list Z) :
  Permutation xs ys -> py_in x xs = py_in x ys.
Proof.
  intros Hp. apply eq_true_iff_eq. rewrite !py_in_In.
  split; apply Permutation_in; [exact Hp | now symmetry].
Qed.

(** [matches] sees the store only through the ids of the four nodes. *)
Lemma matches_ids h h' e g f t f' t' fe te :
  from_node e = fe -> to_node e = te ->
  node_id <$> h' !! f' = node_id <$> h !! f ->
  node_id <$> h' !! t' = node_id <$> h !! t ->
  node_id <$> h' !! fe = node_id <$> h !! fe ->
  node_id <$> h' !! te = node_id <$> h !! te ->
  matches h' e g f' t' = matches h e g f t.
Proof.
  intros <- <- Hf Ht Hfe Hte. unfold matches.
  destruct (_ =? _)%nat; [|reflexivity].
  destruct (h' !! f'), (h !! f); simpl in Hf; try discriminate; simpl;
    [|reflexivity].
  destruct (h' !! from_node e), (h !! from_node e); simpl in Hfe;
    try discriminate; simpl; [|reflexivity].
  injection Hf as ->. injection Hfe as ->.
  destruct (negb _); [reflexivity|].
  destruct (h' !! t'), (h !! t); simpl in Ht; try discriminate; simpl;
    [|reflexivity].
  destruct (h' !! to_node e), (h !! to_node e); simpl in Hte;
    try discriminate; simpl; [|reflexivity].
  injection Ht as ->. injection Hte as ->. reflexivity.
Qed.

(** X1. An entry constructed from two nodes and the innovation numbers
    of a genome matches that genome and those nodes; once one more gene
    is appended to the genome, the same entry no longer matches it. *)
Theorem matches_registered h g f t nb nf nt c :
  h !! f = Some nf -> h !! t = Some nt ->
  let entry := ConnectionHistory__init__ f t nb (innovations (genes g)) in
  matches h entry g f t = Some true /\
  matches h entry {| genes := genes g ++ [c] |} f t = Some false.
Proof.
  intros Hf Ht entry. split.
  - apply matches_true. exists nf, nf, nt, nt. simpl.
    repeat split; try assumption.
    + unfold innovations. now rewrite length_map.
    + apply matches_loop_true. intros g' Hin. unfold innovations.
      now apply in_map.
  - unfold matches. simpl. unfold innovations.
    rewrite length_app, length_map. simpl.
    destruct (Nat.eqb_spec (length (genes g) + 1) (length (genes g)));
      [lia | reflexivity].
Qed.

(** X2. [matches] reads of the genes their innovation numbers and
    nothing else, and not their order: two genomes whose lists of
    innovation numbers are permutations of each other get the same answer
    from every entry. *)
Theorem matches_gene_order h e g g' f t :
  Permutation (innovations (genes g)) (innovations (genes g')) ->
  matches h e g f t = matches h e g' f t.
Proof.
  intros Hp.
  assert (Hlen : length (genes g) = length (genes g')).
  { apply Permutation_length in Hp. unfold innovations in Hp.
    now rewrite !length_map in Hp. }
  assert (Hloop : matches_loop (innovation_nbs e) (genes g) =
                  matches_loop (innovation_nbs e) (genes g')).
  { rewrite !matches_loop_forallb. now apply forallb_perm. }
  unfold matches. now rewrite Hlen, Hloop.
Qed.

(** X3. The order of the stored innovation numbers is immaterial, and so
    is the entry's own innovation number: two entries with the same two
    nodes whose stored lists are permutations of each other give the same
    answer. *)
Theorem matches_stored_order h e e' g f t :
  from_node e = from_node e' -> to_node e = to_node e' ->
  Permutation (innovation_nbs e) (innovation_nbs e') ->
  matches h e g f t = matches h e' g f t.
Proof.
  intros Hfrom Hto Hp.
  assert (Hloop : forall gs : list (ConnectionGene num),
            matches_loop (innovation_nbs e) gs =
            matches_loop (innovation_nbs e') gs).
  { induction gs as [|c gs IH]; simpl; [reflexivity|].
    now rewrite (py_in_perm _ _ _ Hp), IH. }
  unfold matches.
  now rewrite (Permutation_length Hp), Hfrom, Hto, Hloop.
Qed.

(** X4. [matches] compares nodes by id, not by identity: the clone of a
    node is accepted or rejected by an entry exactly as the node itself,
    as the from-node and as the to-node. *)
Theorem matches_clone h e g f t l h' :
  clone of_int h f = Some (l, h') ->
  is_Some (h !! t) ->
  is_Some (h !! from_node e) -> is_Some (h !! to_node e) ->
  matches h' e g l t = matches h e g f t /\
  matches h' e g t l = matches h e g t f.
Proof.
  intros Hc [nt Ht] [nfe Hfe] [nte Hte].
  pose proof (clone_fresh _ _ _ _ _ Hc) as Hfresh.
  unfold clone in Hc. destruct (h !! f) as [nf|] eqn:Hf; [|discriminate].
  simpl in Hc. injection Hc as Hl Hh'. rewrite Hl in Hh'. subst h'.
  assert (Hold : forall k, is_Some (h !! k) ->
            node_id <$> <[l := Node__init__ of_int (node_id nf)
                                 (activation_function nf) (layer nf)]> h !! k
            = node_id <$> h !! k).
  { intros k [nk Hk]. rewrite lookup_insert_ne; [reflexivity|]. congruence. }
  assert (Hnew : node_id <$> <[l := Node__init__ of_int (node_id nf)
                                 (activation_function nf) (layer nf)]> h !! l
                 = node_id <$> h !! f).
  { now rewrite lookup_insert_eq, Hf. }
  split; eapply matches_ids; eauto.
Qed.

End MatchesMore.

(** ** Further properties of [engage] *)

Section EngageMore.

Context {num : Type}.
Variables add mul : num -> num -> num.
Variable activation_functions : ActFn -> num -> num.

Implicit Types (h : store num) (n m : Node num) (cs : list (ConnectionGene num)).

Local Abbreviation engage_loop := (engage_loop add mul).
Local Abbreviation engage := (engage add mul activation_functions).
Local Abbreviation input_after := (input_after add mul).

(** The loop creates no object, removes none and touches no attribute of
    the topology. *)
Lemma engage_loop_wiring self cs : forall h h',
  engage_loop self cs h = Some h' ->
  forall l, wiring <$> h' !! l = wiring <$> h !! l.
Proof.
  induction cs as [|c cs IH]; simpl; intros h h' Hrun l.
  - now injection Hrun as <-.
  - destruct (enabled c); [|now apply IH].
    destruct (h !! gene_to_node c) as [t|] eqn:Ht; simpl in Hrun; [|discriminate].
    destruct (h !! self) as [s|] eqn:Hs; simpl in Hrun; [|discriminate].
    rewrite (IH _ _ Hrun l).
    destruct (decide (gene_to_node c = l)) as [<-|Hne].
    + now rewrite lookup_insert_eq, Ht.
    + now rewrite lookup_insert_ne.
Qed.

Lemma engage_wiring h self h' :
  engage h self = Some h' ->
  forall l, wiring <$> h' !! l = wiring <$> h !! l.
Proof.
  rewrite engage_unfold. intros Hrun l.
  destruct (h !! self) as [s|] eqn:Hs; simpl in Hrun; [|discriminate].
  destruct (layer s =? 0); simpl in Hrun.
  - rewrite Hs in Hrun. simpl in Hrun. exact (engage_loop_wiring _ _ _ _ Hrun l).
  - rewrite lookup_insert_eq in Hrun. simpl in Hrun.
    rewrite (engage_loop_wiring _ _ _ _ Hrun l).
    destruct (decide (self = l)) as [<-|Hne].
    + now rewrite lookup_insert_eq, Hs.
    + now rewrite lookup_insert_ne.
Qed.

Lemma wiring_node_id h h' l :
  wiring <$> h' !! l = wiring <$> h !! l ->
  node_id <$> h' !! l = node_id <$> h !! l.
Proof.
  destruct (h' !! l), (h !! l); simpl; try discriminate; [|reflexivity].
  unfold wiring. now intros [= -> _ _ _].
Qed.

Lemma engage_loop_disabled self cs h :
  (forall c, In c cs -> enabled c = false) ->
  engage_loop self cs h = Some h.
Proof.
  induction cs as [|c cs IH]; simpl; intros Hoff; [reflexivity|].
  rewrite (Hoff c) by now left. apply IH. intros c' Hin. apply Hoff. now right.
Qed.

Lemma get_activation_function_not_str (v : pyval) :
  (forall s, v <> PyStr s) -> get_activation_function v = sigmoid.
Proof. intros Hv. destruct v as [s| | |]; [destruct (Hv s eq_refl)| | |]; reflexivity. Qed.

(** X5. [engage] never changes which nodes are connected: after a call,
    [is_connected_to] answers for every pair of nodes what it answered
    before. *)
Theorem engage_keeps_connectivity h self h' a b :
  engage h self = Some h' ->
  is_connected_to h' a b = is_connected_to h a b.
Proof.
  intros Hrun. pose proof (engage_wiring _ _ _ Hrun) as Hw.
  unfold is_connected_to.
  pose proof (Hw a) as Ha. pose proof (Hw b) as Hb.
  destruct (h' !! b), (h !! b); simpl in Hb; try discriminate; simpl;
    [|reflexivity].
  destruct (h' !! a), (h !! a); simpl in Ha; try discriminate; simpl;
    [|reflexivity].
  unfold wiring in Ha, Hb.
  injection Ha as _ -> -> _. injection Hb as _ -> -> _. reflexivity.
Qed.

(** X6. [engage] never changes what the registry recognises: after a
    call, every entry gives for every genome and pair of nodes the answer
    it gave before. *)
Theorem engage_keeps_matches h self h' e (g : Genome num) f t :
  engage h self = Some h' ->
  matches h' e g f t = matches h e g f t.
Proof.
  intros Hrun. pose proof (engage_wiring _ _ _ Hrun) as Hw.
  apply (matches_ids h h' e g f t f t (from_node e) (to_node e));
    try reflexivity; apply wiring_node_id, Hw.
Qed.

(** X7. A node all of whose connections are disabled, or that has none,
    sends nothing: on layer 0 [engage] leaves the whole store as it is,
    on another layer it assigns the node's own [output_value] and nothing
    else. *)
Theorem engage_all_disabled h self n :
  h !! self = Some n ->
  (forall c, In c (output_connections n) -> enabled c = false) ->
  engage h self =
  Some (if layer n =? 0 then h
        else <[self := set_output_value n
                 (activation_functions
                    (get_activation_function (activation_function n))
                    (input_sum n))]> h).
Proof.
  intros Hn Hoff. rewrite engage_unfold, Hn. simpl.
  destruct (layer n =? 0); simpl.
  - rewrite Hn. simpl. now apply engage_loop_disabled.
  - rewrite lookup_insert_eq. simpl. now apply engage_loop_disabled.
Qed.

(** X8. Two calls in layer order carry a value across a connection: when
    [a] engages and then a node [b] on a layer other than 0 engages, the
    output of [b] is its activation function applied to its accumulator
    plus [weight * output] of [a] for every enabled connection from [a]
    to [b]. *)
Theorem engage_propagates h a b na nb :
  h !! a = Some na -> h !! b = Some nb -> a <> b ->
  layer nb <> 0 ->
  (forall c, In c (output_connections na) -> enabled c = true ->
             is_Some (h !! gene_to_node c)) ->
  (forall c, In c (output_connections nb) -> enabled c = true ->
             is_Some (h !! gene_to_node c)) ->
  let out_a :=
    if layer na =? 0 then output_value na
    else activation_functions (get_activation_function (activation_function na))
                              (input_sum na) in
  exists h1 h2 nb2,
    engage h a = Some h1 /\ engage h1 b = Some h2 /\
    h2 !! b = Some nb2 /\
    output_value nb2 =
      activation_functions (get_activation_function (activation_function nb))
        (input_after b out_a (output_connections na) (input_sum nb)).
Proof.
  intros Ha Hb Hab Hlayer Hlive_a Hlive_b out_a.
  destruct (engage_effect add mul activation_functions h a na Ha Hlive_a)
    as (h1 & _ & Hrun1 & _ & _ & _ & _ & _ & _ & Hall & _).
  fold out_a in Hall.
  destruct (Hall b nb Hb) as (nb1 & Hnb1 & Hsum & Hrest).
  assert (Hb1 : nb1 = set_input_sum nb (input_sum nb1)) by (apply Hrest; congruence).
  destruct (engage_effect add mul activation_functions h1 b nb1 Hnb1)
    as (h2 & nb2 & Hrun2 & Hnb2 & Hout & _).
  { rewrite Hb1. simpl. intros c Hin Hen.
    destruct (Hlive_b c Hin Hen) as [m Hm].
    destruct (Hall _ m Hm) as (m' & Hm' & _). eauto. }
  exists h1, h2, nb2. split; [exact Hrun1|]. split; [exact Hrun2|].
  split; [exact Hnb2|]. rewrite Hout, <- Hsum.
  assert (Hl : layer nb1 = layer nb) by (rewrite Hb1; reflexivity).
  assert (Haf : activation_function nb1 = activation_function nb)
    by (rewrite Hb1; reflexivity).
  rewrite Hl, Haf. destruct (Z.eqb_spec (layer nb) 0); [contradiction|reflexivity].
Qed.

(** X9. A node on a layer other than 0 whose attribute
    [activation_function] is one of the plain functions of the module
    [activation_functions], as the unit tests pass to the constructor, an
    int or [None], engages with sigmoid whichever function it is. *)
Theorem engage_callable_sigmoid h self n :
  h !! self = Some n -> layer n <> 0 ->
  (forall s, activation_function n <> PyStr s) ->
  (forall c, In c (output_connections n) -> enabled c = true ->
             is_Some (h !! gene_to_node c)) ->
  exists h' n',
    engage h self = Some h' /\ h' !! self = Some n' /\
    output_value n' = activation_functions sigmoid (input_sum n).
Proof.
  intros Hn Hlayer Hv Hlive.
  destruct (engage_effect add mul activation_functions h self n Hn Hlive)
    as (h' & n' & Hrun & Hn' & Hout & _).
  exists h', n'. split; [exact Hrun|]. split; [exact Hn'|].
  rewrite Hout, (get_activation_function_not_str _ Hv).
  destruct (Z.eqb_spec (layer n) 0); [contradiction|reflexivity].
Qed.

End EngageMore.

(** ** Further properties of [mutate], [clone] and [get_activation_function] *)

Section MutateMore.

Context {num : Type}.
Variable of_int : Z -> num.
Variables add div : num -> num -> num.
Variable ltb : num -> num -> bool.
Variable draw : @history num -> @rand_call num -> num.
Variable pick : @history num -> list string -> string.

Implicit Types (h : store num) (n : Node num) (config : NeatConfig num)
  (tr calls : @history num).

Local Abbreviation mutate := (mutate of_int add div ltb draw pick).

(** X10. [mutate] never touches the topology or the accumulator: the
    id, the layer, the list of output connections and [input_sum] of the
    node come out as they went in, for a bias node and for any other. *)
Theorem mutate_keeps_structure config is_bias_node n tr :
  let n' := fst (mutate config is_bias_node n tr) in
  node_id n' = node_id n /\ layer n' = layer n /\
  output_connections n' = output_connections n /\
  input_sum n' = input_sum n.
Proof.
  rewrite mutate_unfold.
  pose proof (mutate_bias_frame of_int add div ltb draw config n tr) as Hframe.
  simpl in Hframe.
  destruct is_bias_node.
  - destruct (mutate_bias _ _ _ _ _ _ _ _) as [n1 trb]. simpl in Hframe.
    destruct (ltb _ _); simpl; tauto.
  - destruct (ltb _ _); simpl; auto.
Qed.

(** X11. Without the bias flag [mutate] keeps [output_value] and calls
    neither [uniform] nor [normal]: it draws one [random] and, when the
    activation branch is taken, one [choice]. *)
Theorem mutate_non_bias config n tr :
  let r := mutate config false n tr in
  output_value (fst r) = output_value n /\
  exists calls,
    snd r = calls ++ tr /\
    has_uniform calls = false /\ has_normal calls = false /\
    (calls = [Call_random] \/
     calls = [Call_choice activations_functions; Call_random]).
Proof.
  rewrite mutate_unfold. simpl.
  destruct (ltb _ _); simpl; (split; [reflexivity|]).
  - exists [Call_choice activations_functions; Call_random]. auto.
  - exists [@Call_random num]. auto.
Qed.

(** X12. Over numbers any two of which are comparable, in the sense
    that [not (b < a)] and [b < c] give [a < c] (true of a total order,
    false of floats at NaN), and with the bounds the wrong way round,
    [bias_max_value < bias_min_value], the perturb branch of a bias node
    always ends on [bias_min_value], whatever the old value and the
    sample of [normal] are among such numbers. *)
Theorem mutate_inverted_bounds config n tr :
  (forall a b c, ltb b a = false -> ltb b c = true -> ltb a c = true) ->
  ltb (bias_max_value config) (bias_min_value config) = true ->
  ltb (draw tr Call_random) (bias_replace_rate config) = false ->
  ltb (draw (Call_random :: tr) Call_random) (bias_mutate_rate config) = true ->
  output_value (fst (mutate config true n tr)) = bias_min_value config.
Proof.
  intros Htrans Hinv Hrep Hmut.
  rewrite mutate_unfold, mutate_bias_unfold. simpl. rewrite Hrep, Hmut.
  match goal with |- context [ltb (bias_max_value config) ?v] =>
    destruct (ltb (bias_max_value config) v) eqn:Hmax end.
  - rewrite Hinv. destruct (ltb _ (activation_mutate_rate config)); reflexivity.
  - rewrite (Htrans _ _ _ Hmax Hinv).
    destruct (ltb _ (activation_mutate_rate config)); reflexivity.
Qed.

(** X13. In a store whose connections all point to existing nodes, a
    fresh clone is connected to no node in either direction, whatever
    the connections of the original are. *)
Theorem clone_unconnected h self l h' b :
  closed h ->
  clone of_int h self = Some (l, h') ->
  is_Some (h !! b) ->
  is_connected_to h' l b = Some false /\
  is_connected_to h' b l = Some false.
Proof.
  intros Hclosed Hc [nb Hb].
  pose proof (clone_fresh _ _ _ _ _ Hc) as Hfresh.
  unfold clone in Hc. destruct (h !! self) as [ns|] eqn:Hs; [|discriminate].
  simpl in Hc. injection Hc as Hl Hh'. rewrite Hl in Hh'. subst h'.
  assert (Hbl : b <> l) by congruence.
  assert (Hnone : is_connected_loop l (output_connections nb) = false).
  { apply not_true_is_false. intros Hloop.
    apply is_connected_loop_true in Hloop. destruct Hloop as (c & Hin & Hto).
    destruct (Hclosed b nb c Hb Hin) as [m Hm]. congruence. }
  unfold is_connected_to.
  rewrite lookup_insert_eq, (lookup_insert_ne _ l b) by congruence.
  rewrite Hb. simpl. split.
  - destruct (layer nb =? layer ns); [reflexivity|].
    destruct (layer nb <? layer ns); [now rewrite Hnone | reflexivity].
  - destruct (layer ns =? layer nb); [reflexivity|].
    destruct (layer ns <? layer nb); [reflexivity | now rewrite Hnone].
Qed.

Local Ltac exact_name s lit :=
  destruct (String.eqb_spec s lit) as [->|_];
  [intros <- _; reflexivity|].

(** X14. Among strings and values with default equality (plain
    functions, ints, [None]) only the exact name selects a function other
    than sigmoid: when [get_activation_function] returns [f] for such an
    argument and [f] is not sigmoid, the argument is the string that
    spells the name of [f]. *)
Theorem get_activation_function_exact (v : pyval) (f : ActFn) :
  get_activation_function v = f -> f <> sigmoid ->
  v = PyStr (name_of f).
Proof.
  destruct v as [s| | |]; try (intros <- Hf; now destruct Hf).
  unfold get_activation_function, py_eq_str.
  exact_name s "elu"%string.
  exact_name s "leaky_relu"%string.
  exact_name s "linear"%string.
  exact_name s "prelu"%string.
  exact_name s "relu"%string.
  destruct (String.eqb_spec s "sigmoid"); [intros <- Hf; now destruct Hf|].
  exact_name s "softmax"%string.
  exact_name s "step"%string.
  exact_name s "swish"%string.
  exact_name s "tanh"%string.
  intros <- Hf. now destruct Hf.
Qed.

End MutateMore.

(** ** The further properties on concrete objects *)

Lemma matches_registered_witness :
  let entry := ConnectionHistory__init__ 0%nat 1%nat 7 (innovations (genes genome_one)) in
  matches store_abc entry genome_one 0%nat 1%nat = Some true /\
  matches store_abc entry
    {| genes := genes genome_one ++ [gene 1 2 5 9 true] |} 0%nat 1%nat = Some false.
Proof.
  apply (matches_registered store_abc genome_one 0%nat 1%nat 7 node_a node_b
           (gene 1 2 5 9 true)); reflexivity.
Defined.

Lemma matches_gene_order_witness :
  matches store_abc entry_12
    {| genes := [gene 0 1 2 1 true; gene 0 1 3 2 false] |} 0%nat 1%nat =
  matches store_abc entry_12
    {| genes := [gene 1 2 7 2 true; gene 0 2 9 1 true] |} 0%nat 1%nat.
Proof.
  apply (matches_gene_order store_abc entry_12
           {| genes := [gene 0 1 2 1 true; gene 0 1 3 2 false] |}
           {| genes := [gene 1 2 7 2 true; gene 0 2 9 1 true] |}).
  simpl. apply perm_swap.
Defined.

Lemma matches_stored_order_witness :
  matches store_abc entry_12 genome_dup 0%nat 1%nat =
  matches store_abc (ConnectionHistory__init__ 0%nat 1%nat 99 [2; 1])
          genome_dup 0%nat 1%nat.
Proof.
  apply (matches_stored_order store_abc entry_12
           (ConnectionHistory__init__ 0%nat 1%nat 99 [2; 1]));
    [reflexivity | reflexivity | simpl; apply perm_swap].
Defined.

Lemma matches_clone_witness :
  exists l h',
    clone Q_of_int store_abc 0%nat = Some (l, h') /\
    matches h' entry_1 genome_one l 1%nat =
    matches store_abc entry_1 genome_one 0%nat 1%nat /\
    matches h' entry_1 genome_one 1%nat l =
    matches store_abc entry_1 genome_one 1%nat 0%nat.
Proof.
  destruct (clone Q_of_int store_abc 0%nat) as [[l h']|] eqn:Hc;
    [|discriminate Hc].
  exists l, h'. split; [reflexivity|].
  apply (matches_clone Q_of_int store_abc entry_1 genome_one 0%nat 1%nat l h' Hc).
  - exists node_b. reflexivity.
  - exists node_a. reflexivity.
  - exists node_b. reflexivity.
Defined.

Lemma engage_keeps_connectivity_witness :
  exists h',
    engage Qplus Qmult Q_activation store_abc 0%nat = Some h' /\
    is_connected_to h' 0%nat 1%nat = is_connected_to store_abc 0%nat 1%nat.
Proof.
  destruct (engage Qplus Qmult Q_activation store_abc 0%nat) as [h'|] eqn:Hrun;
    [|discriminate Hrun].
  exists h'. split; [reflexivity|].
  exact (engage_keeps_connectivity Qplus Qmult Q_activation store_abc 0%nat h'
           0%nat 1%nat Hrun).
Defined.

Lemma engage_keeps_matches_witness :
  exists h',
    engage Qplus Qmult Q_activation store_abc 0%nat = Some h' /\
    matches h' entry_1 genome_one 0%nat 1%nat =
    matches store_abc entry_1 genome_one 0%nat 1%nat.
Proof.
  destruct (engage Qplus Qmult Q_activation store_abc 0%nat) as [h'|] eqn:Hrun;
    [|discriminate Hrun].
  exists h'. split; [reflexivity|].
  exact (engage_keeps_matches Qplus Qmult Q_activation store_abc 0%nat h'
           entry_1 genome_one 0%nat 1%nat Hrun).
Defined.

Lemma engage_all_disabled_witness :
  engage Qplus Qmult Q_activation store_abc 1%nat =
  Some (<[1%nat := set_output_value node_b (Q_activation sigmoid (inject_Z 0))]>
          store_abc).
Proof.
  apply (engage_all_disabled Qplus Qmult Q_activation store_abc 1%nat node_b).
  - reflexivity.
  - intros c [].
Defined.

Lemma engage_propagates_witness :
  exists h1 h2 nb2,
    engage Qplus Qmult Q_activation store_pair 0%nat = Some h1 /\
    engage Qplus Qmult Q_activation h1 1%nat = Some h2 /\
    h2 !! 1%nat = Some nb2 /\
    output_value nb2 =
      Q_activation tanh (Qplus (inject_Z 5) (Qmult (inject_Z 3) (inject_Z 2))).
Proof.
  apply (engage_propagates Qplus Qmult Q_activation store_pair 0%nat 1%nat
           node_src node_dst).
  - reflexivity.
  - reflexivity.
  - discriminate.
  - discriminate.
  - intros c [<-|[]] _. exists node_dst. reflexivity.
  - intros c [].
Defined.

Lemma engage_callable_sigmoid_witness :
  exists h' n',
    engage Qplus Qmult Q_activation
      (<[2%nat := set_activation_function node_c (PyFun relu)]> store_abc) 2%nat
      = Some h' /\
    h' !! 2%nat = Some n' /\
    output_value n' = Q_activation sigmoid (inject_Z 4).
Proof.
  apply (engage_callable_sigmoid Qplus Qmult Q_activation
           (<[2%nat := set_activation_function node_c (PyFun relu)]> store_abc)
           2%nat (set_activation_function node_c (PyFun relu))).
  - reflexivity.
  - discriminate.
  - discriminate.
  - intros c [].
Defined.

Lemma Q_ltb_trans (a b c : Q) :
  Q_ltb b a = false -> Q_ltb b c = true -> Q_ltb a c = true.
Proof.
  unfold Q_ltb. intros Hab Hbc.
  apply negb_false_iff, Qle_bool_iff in Hab.
  apply negb_true_iff in Hbc. apply negb_true_iff.
  apply not_true_is_false. intros Hca. apply Qle_bool_iff in Hca.
  assert (Hcb : Qle c b) by (eapply Qle_trans; eassumption).
  apply Qle_bool_iff in Hcb. congruence.
Qed.

Lemma mutate_inverted_bounds_witness :
  output_value
    (fst (mutate Q_of_int Qplus Qdiv Q_ltb Q_draw Q_pick config_inverted true
            node_a [])) = inject_Z 1.
Proof.
  apply (mutate_inverted_bounds Q_of_int Qplus Qdiv Q_ltb Q_draw Q_pick
           config_inverted node_a [] Q_ltb_trans); reflexivity.
Defined.

Lemma store_abc_closed : closed store_abc.
Proof.
  intros l n c Hl Hin. unfold store_abc in Hl.
  apply lookup_insert_Some in Hl. destruct Hl as [[_ <-]|[_ Hl]].
  { destruct Hin as [<-|[<-|[]]]; exists node_b; reflexivity. }
  apply lookup_insert_Some in Hl. destruct Hl as [[_ <-]|[_ Hl]]; [destruct Hin|].
  apply lookup_insert_Some in Hl. destruct Hl as [[_ <-]|[_ Hl]]; [destruct Hin|].
  rewrite lookup_empty in Hl. discriminate.
Qed.

Lemma clone_unconnected_witness :
  exists l h',
    clone Q_of_int store_abc 0%nat = Some (l, h') /\
    is_connected_to store_abc 0%nat 1%nat = Some true /\
    is_connected_to h' l 1%nat = Some false /\
    is_connected_to h' 1%nat l = Some false.
Proof.
  destruct (clone Q_of_int store_abc 0%nat) as [[l h']|] eqn:Hc;
    [|discriminate Hc].
  exists l, h'. split; [reflexivity|]. split; [reflexivity|].
  apply (clone_unconnected Q_of_int store_abc 0%nat l h' 1%nat
           store_abc_closed Hc).
  exists node_b. reflexivity.
Defined.

Lemma get_activation_function_exact_witness :
  PyStr "tanh" = PyStr (name_of tanh).
Proof.
  apply (get_activation_function_exact (PyStr "tanh") tanh);
    [reflexivity | discriminate].
Defined.

(** ** Matching as equality of sets, and repeated engagement *)

Section SetsAndRepeats.

Context {num : Type}.
Variables add mul : num -> num -> num.
Variable activation_functions : ActFn -> num -> num.

Implicit Types (h : store num) (e : ConnectionHistory) (g : Genome num)
  (n m : Node num).

Local Abbreviation engage := (engage add mul activation_functions).
Local Abbreviation input_after := (input_after add mul).

(** X15. For a genome whose innovation numbers are pairwise distinct,
    [matches] returns true exactly when the two pairs of ids agree and
    the stored list is a rearrangement of the genome's innovation
    numbers; in particular the stored list then has no duplicates
    either. *)
Theorem matches_iff_permutation h e g f t nf nt nfe nte :
  h !! f = Some nf -> h !! t = Some nt ->
  h !! from_node e = Some nfe -> h !! to_node e = Some nte ->
  List.NoDup (innovations (genes g)) ->
  (matches h e g f t = Some true <->
   node_id nf = node_id nfe /\ node_id nt = node_id nte /\
   Permutation (innovations (genes g)) (innovation_nbs e)).
Proof.
  intros Hf Ht Hfe Hte Hnd. rewrite matches_true. split.
  - intros (nf' & nfe' & nt' & nte' & Hf' & Hfe' & Ht' & Hte' & Hlen & Hi1 & Hi2 & Hloop).
    assert (nf' = nf) by congruence. assert (nfe' = nfe) by congruence.
    assert (nt' = nt) by congruence. assert (nte' = nte) by congruence.
    subst. split; [exact Hi1|]. split; [exact Hi2|].
    rewrite matches_loop_true in Hloop.
    assert (Hincl : incl (innovations (genes g)) (innovation_nbs e)).
    { intros y Hy. unfold innovations in Hy. apply in_map_iff in Hy.
      destruct Hy as (c & <- & Hc). auto. }
    assert (Hle : (length (innovation_nbs e) <= length (innovations (genes g)))%nat).
    { unfold innovations. rewrite length_map. lia. }
    apply Permutation.NoDup_Permutation; [exact Hnd | |].
    + exact (NoDup_incl_NoDup Hnd Hle Hincl).
    + intros x. split; [apply Hincl|].
      exact (NoDup_length_incl Hnd Hle Hincl x).
  - intros (Hi1 & Hi2 & Hp). exists nf, nfe, nt, nte.
    repeat split; try assumption.
    + apply Permutation_length in Hp. unfold innovations in Hp.
      now rewrite length_map in Hp.
    + apply matches_loop_true. intros c Hc.
      apply (Permutation_in _ Hp). unfold innovations. now apply in_map.
Qed.

(** X16. [engage] accumulates: when a node that no enabled connection
    of its own points to engages twice in a row, every accumulator has
    received the contributions of the node's enabled connections twice,
    with the same output both times. *)
Theorem engage_twice_accumulates h a na :
  h !! a = Some na ->
  (forall c, In c (output_connections na) -> enabled c = true ->
             is_Some (h !! gene_to_node c)) ->
  (forall c, In c (output_connections na) -> enabled c = true ->
             gene_to_node c <> a) ->
  let out :=
    if layer na =? 0 then output_value na
    else activation_functions (get_activation_function (activation_function na))
                              (input_sum na) in
  exists h1 h2,
    engage h a = Some h1 /\ engage h1 a = Some h2 /\
    forall l m, h !! l = Some m ->
      exists m2, h2 !! l = Some m2 /\
        input_sum m2 =
          input_after l out (output_connections na)
            (input_after l out (output_connections na) (input_sum m)).
Proof.
  intros Ha Hlive Hnoloop out.
  destruct (engage_effect add mul activation_functions h a na Ha Hlive)
    as (h1 & na1 & Hrun1 & Hna1 & Hout1 & _ & Hlay1 & Hcs1 & Haf1 & Hall1 & Hfree1).
  fold out in Hout1, Hall1.
  destruct (Hfree1 a na Ha Hnoloop) as (na1' & Hna1' & Hsum1).
  assert (na1' = na1) by congruence. subst na1'.
  destruct (engage_effect add mul activation_functions h1 a na1 Hna1)
    as (h2 & _ & Hrun2 & _ & _ & _ & _ & _ & _ & Hall2 & _).
  { rewrite Hcs1. intros c Hin Hen. destruct (Hlive c Hin Hen) as [m Hm].
    destruct (Hall1 _ m Hm) as (m' & Hm' & _). eauto. }
  assert (Hout2 :
    (if layer na1 =? 0 then output_value na1
     else activation_functions (get_activation_function (activation_function na1))
                               (input_sum na1)) = out).
  { rewrite Hlay1, Haf1, Hsum1, Hout1. unfold out.
    destruct (layer na =? 0); reflexivity. }
  rewrite Hout2, Hcs1 in Hall2.
  exists h1, h2. split; [exact Hrun1|]. split; [exact Hrun2|].
  intros l m Hm. destruct (Hall1 l m Hm) as (m1 & Hm1 & Hs1 & _).
  destruct (Hall2 l m1 Hm1) as (m2 & Hm2 & Hs2 & _).
  exists m2. split; [exact Hm2|]. now rewrite Hs2, Hs1.
Qed.

End SetsAndRepeats.

Lemma matches_iff_permutation_witness :
  matches store_abc entry_1 genome_one 0%nat 1%nat = Some true <->
  node_id node_a = node_id node_a /\ node_id node_b = node_id node_b /\
  Permutation (innovations (genes genome_one)) (innovation_nbs entry_1).
Proof.
  apply (matches_iff_permutation store_abc entry_1 genome_one 0%nat 1%nat
           node_a node_b node_a node_b); try reflexivity.
  simpl. constructor; [intros []|constructor].
Defined.

Lemma engage_twice_accumulates_witness :
  exists h1 h2,
    engage Qplus Qmult Q_activation store_pair 0%nat = Some h1 /\
    engage Qplus Qmult Q_activation h1 0%nat = Some h2 /\
    exists m2, h2 !! 1%nat = Some m2 /\
      input_sum m2 =
        Qplus (Qplus (inject_Z 5) (Qmult (inject_Z 3) (inject_Z 2)))
              (Qmult (inject_Z 3) (inject_Z 2)).
Proof.
  destruct (engage_twice_accumulates Qplus Qmult Q_activation store_pair 0%nat
              node_src eq_refl) as (h1 & h2 & Hrun1 & Hrun2 & Hall).
  - intros c [<-|[]] _. exists node_dst. reflexivity.
  - intros c [<-|[]] _. discriminate.
  - exists h1, h2. split; [exact Hrun1|]. split; [exact Hrun2|].
    exact (Hall 1%nat node_dst eq_refl).
Defined.

(** ** Arguments of any class, and numbers that are not ordered *)

Section AnyArgument.

(** On a string or a value with default equality the general chain is
    the chain of [get_activation_function], and it returns. *)
Lemma get_activation_function_any_default (v : pyval) :
  get_activation_function_any (default_eq v) = Some (get_activation_function v).
Proof.
  unfold get_activation_function_any, get_activation_function, default_eq.
  repeat match goal with
         | |- context [py_eq_str v ?s] => destruct (py_eq_str v s); simpl; try reflexivity
         end.
Qed.

(** C5, amended. For every argument that is a string or a value compared
    by default equality (a plain function such as the callables of the
    module, an int, [None]), [get_activation_function] returns the
    function of the same name when the argument is one of the ten names
    step, sigmoid, tanh, relu, leaky_relu, prelu, elu, softmax, linear
    and swish, and returns sigmoid for every other such argument; it
    never raises. *)
Theorem get_activation_function_default_equality :
  (forall f, get_activation_function_any (default_eq (PyStr (name_of f))) = Some f) /\
  (forall v : pyval, (forall f, v <> PyStr (name_of f)) ->
     get_activation_function_any (default_eq v) = Some sigmoid).
Proof.
  split.
  - intros f. rewrite get_activation_function_any_default.
    now rewrite (proj1 get_activation_function_table).
  - intros v Hv. rewrite get_activation_function_any_default.
    now rewrite (proj2 get_activation_function_table v Hv).
Qed.

End AnyArgument.

(** C5, as stated, fails: an argument that compares equal to everything
    is none of the ten names, yet the first test succeeds and elu is
    returned, not sigmoid; and for an argument whose comparison cannot
    be used as a condition the call raises. *)
Lemma get_activation_function_any_counterexample :
  (forall f, eq_anything <> default_eq (PyStr (name_of f))) /\
  get_activation_function_any eq_anything = Some elu /\
  get_activation_function_any eq_anything <> Some sigmoid /\
  get_activation_function_any eq_raises = None.
Proof.
  split; [|split; [reflexivity|split; [discriminate|reflexivity]]].
  intros f Heq.
  assert (H : eq_anything "none"%string = default_eq (PyStr (name_of f)) "none"%string)
    by now rewrite Heq.
  destruct f; discriminate H.
Qed.

Lemma get_activation_function_default_equality_witness :
  get_activation_function_any (default_eq (PyFun relu)) = Some sigmoid /\
  get_activation_function_any (default_eq (PyStr "gelu")) = Some sigmoid /\
  get_activation_function_any (default_eq (PyStr "swish")) = Some swish.
Proof.
  split; [|split].
  - apply (proj2 get_activation_function_default_equality).
    intros f; destruct f; discriminate.
  - apply (proj2 get_activation_function_default_equality).
    intros f; destruct f; discriminate.
  - exact (proj1 get_activation_function_default_equality swish).
Defined.

Section OrderedNumbers.

Context {num : Type}.
Variable of_int : Z -> num.
Variables add div : num -> num -> num.
Variable ltb : num -> num -> bool.
Variable draw : @history num -> @rand_call num -> num.
Variable pick : @history num -> list string -> string.

Implicit Types (n : Node num) (config : NeatConfig num) (tr calls : @history num).

Local Abbreviation mutate := (mutate of_int add div ltb draw pick).

(** Whatever the numbers are, a call on a bias node takes at most one of
    the two bias branches. *)
Lemma mutate_bias_exclusive config n tr :
  exists calls n',
    mutate config true n tr = (n', calls ++ tr) /\
    has_uniform calls && has_normal calls = false.
Proof.
  rewrite mutate_unfold, mutate_bias_unfold. simpl.
  destruct (ltb (draw tr Call_random) (bias_replace_rate config)).
  { destruct (ltb _ (activation_mutate_rate config)).
    - eexists [Call_choice _; Call_random; Call_uniform _ _; Call_random], _.
      split; reflexivity.
    - eexists [Call_random; Call_uniform _ _; Call_random], _.
      split; reflexivity. }
  destruct (ltb (draw (Call_random :: tr) Call_random) (bias_mutate_rate config)).
  - destruct (ltb _ (activation_mutate_rate config)).
    + eexists [Call_choice _; Call_random; Call_normal _ _; Call_random; Call_random], _.
      split; reflexivity.
    + eexists [Call_random; Call_normal _ _; Call_random; Call_random], _.
      split; reflexivity.
  - destruct (ltb _ (activation_mutate_rate config)).
    + eexists [Call_choice _; Call_random; Call_random; Call_random], _.
      split; reflexivity.
    + eexists [Call_random; Call_random; Call_random], _.
      split; reflexivity.
Qed.

(** C6, amended. For every bias node and every configuration, one call
    of [mutate] with [is_bias_node = True] never both replaces and
    perturbs the output value.  When moreover the numbers are totally
    ordered by [<] (for all [a] and [b], [not (a < b)] gives [b <= a],
    which excludes NaN), [uniform (low, high)] returns a value within
    [[low, high]] for [low <= high], and
    [bias_min_value <= bias_max_value], then whenever one of the two
    branches is taken the resulting [output_value] lies within
    [[bias_min_value, bias_max_value]]. *)
Theorem mutate_bias_exclusive_bounded_ordered config n tr :
  exists calls n',
    mutate config true n tr = (n', calls ++ tr) /\
    has_uniform calls && has_normal calls = false /\
    forall le : num -> num -> Prop,
      (forall a, le a a) ->
      (forall a b, ltb a b = false -> le b a) ->
      (forall a b, le a b -> ltb b a = false) ->
      (forall tr' low high, le low high ->
         le low (draw tr' (Call_uniform low high)) /\
         le (draw tr' (Call_uniform low high)) high) ->
      le (bias_min_value config) (bias_max_value config) ->
      has_uniform calls || has_normal calls = true ->
      le (bias_min_value config) (output_value n') /\
      le (output_value n') (bias_max_value config).
Proof.
  destruct (mutate_bias_exclusive config n tr) as (calls & n' & Hrun & Hex).
  exists calls, n'. split; [exact Hrun|]. split; [exact Hex|].
  intros le Hrefl Hfalse Hle Huni Hbounds Hfired.
  destruct (mutate_bias_exclusive_bounded of_int add div ltb draw pick le
              Hrefl Hfalse Hle Huni config n tr Hbounds)
    as (calls' & n'' & Hrun' & _ & Hin).
  rewrite Hrun in Hrun'. injection Hrun' as Hn Hcalls.
  apply app_inv_tail in Hcalls. subst. auto.
Qed.

End OrderedNumbers.

(** C6, as stated, fails at NaN: the bounds are -1 and 1, the bias node
    holds NaN, the perturb branch adds the sample to it and gets NaN,
    neither comparison with a bound holds, and the node keeps NaN, which
    lies in no interval. *)
Lemma mutate_bias_nan_counterexample :
  QN_le (bias_min_value config_nan) (bias_max_value config_nan) /\
  exists calls n',
    mutate QN_of_int QN_add QN_div QN_ltb QN_draw QN_pick config_nan true
      node_nan [] = (n', calls ++ []) /\
    has_normal calls = true /\
    output_value n' = None /\
    ~ (QN_le (bias_min_value config_nan) (output_value n') /\
       QN_le (output_value n') (bias_max_value config_nan)).
Proof.
  split; [discriminate|].
  exists [Call_choice activations_functions; Call_random;
          Call_normal (QN_of_int 0) (QN_of_int 1); Call_random; Call_random].
  eexists. split; [reflexivity|]. split; [reflexivity|].
  split; [reflexivity|]. simpl. intros [[] _].
Qed.

Lemma mutate_bias_exclusive_bounded_ordered_witness :
  exists calls n',
    mutate Q_of_int Qplus Qdiv Q_ltb Q_draw Q_pick config_perturb true node_a []
      = (n', calls ++ []) /\
    has_uniform calls && has_normal calls = false /\
    has_normal calls = true /\
    Qle (bias_min_value config_perturb) (output_value n') /\
    Qle (output_value n') (bias_max_value config_perturb).
Proof.
  destruct (mutate_bias_exclusive_bounded_ordered Q_of_int Qplus Qdiv Q_ltb
              Q_draw Q_pick config_perturb node_a [])
    as (calls & n' & Hrun & Hex & Hin).
  exists calls, n'. split; [exact Hrun|]. split; [exact Hex|].
  assert (Hcalls : has_normal calls = true).
  { rewrite mutate_perturbs, app_nil_r in Hrun. injection Hrun as _ Hc.
    now subst calls. }
  split; [exact Hcalls|].
  apply (Hin Qle Qle_refl Q_ltb_false_le Q_le_ltb_false Q_uniform_range).
  - discriminate.
  - rewrite Hcalls. apply orb_true_r.
Defined.
